(** * A key-value store on top of a B-tree: model and verification

    The development follows the [KV] class of the notebook
    "Implementing a Key-Value Database" ([Basics.ipynb], last version of
    the class).  The class inherits from [BTree] (module [btree], which
    is imported by the notebook but is not part of the sources); the
    tree engine is therefore modelled from the written specification and
    every definition that is so modelled says it in its documentation.

    Layout:
    - [Py]     : the fragment of Python values the store manipulates;
    - [BTree]  : the tree engine ([search], [insert], [less_than],
                 [greater_than]);
    - [KV]     : the typed store ([get], [set], [range_query], [dump],
                 [load], [load_from_dict]);
    - theorems, one per claim of the specification. *)

From Stdlib Require Import ZArith List Ascii String OrdersEx DecimalString Lia.
From stdpp Require Import base tactics option list gmap strings.

Local Open Scope string_scope.
Local Open Scope list_scope.

(* ===================================================================== *)
(** * Python values *)
(* ===================================================================== *)

Module Py.

(** Scalar values: what the notebook uses as keys and values
    ([None], [int] and [str] objects). *)
Inductive pyval : Type :=
| PyNone
| PyInt (z : Z)
| PyStr (s : string).

(** The objects that can be passed where a sequence is expected:
    a scalar, a [list] or a [tuple] of scalars. *)
Inductive pyobj : Type :=
| PyScalar (v : pyval)
| PyList (items : list pyval)
| PyTuple (items : list pyval).

(** Classes of the objects above. *)
Inductive pytype : Type := NoneType | int | str | list_ | tuple_.

#[global] Instance pyval_eq_dec : EqDecision pyval.
Proof. solve_decision. Defined.
#[global] Instance pytype_eq_dec : EqDecision pytype.
Proof. solve_decision. Defined.

Definition type_of (v : pyval) : pytype :=
  match v with
  | PyNone => NoneType
  | PyInt _ => int
  | PyStr _ => str
  end.

Definition type_of_obj (o : pyobj) : pytype :=
  match o with
  | PyScalar v => type_of v
  | PyList _ => list_
  | PyTuple _ => tuple_
  end.

(** [isinstance(v, ty)]: none of the classes above is a subclass of
    another one. *)
Definition isinstance (v : pyval) (ty : pytype) : bool :=
  bool_decide (type_of v = ty).

(** [isinstance(o, (ty1, ..., tyn))]. *)
Definition isinstance_any (o : pyobj) (tys : list pytype) : bool :=
  existsb (fun ty => bool_decide (type_of_obj o = ty)) tys.

(** [v is None]. *)
Definition is_None (v : pyval) : bool :=
  match v with PyNone => true | _ => false end.

(** Exceptions: the class and the message. *)
Inductive exn : Type :=
| ValueError (msg : string)
| KeyError (msg : string)
| TypeError (msg : string)
| OSError (msg : string)
| UnpicklingError (msg : string).

Inductive result (A : Type) : Type :=
| Return (a : A)
| Raise (e : exn).
Arguments Return {A} a.
Arguments Raise {A} e.

(** [str(v)], as used by [str.format]. *)
Definition str_of (v : pyval) : string :=
  match v with
  | PyNone => "None"
  | PyInt z => NilZero.string_of_int (Z.to_int z)
  | PyStr s => s
  end.

(** [repr(ty)] of a class. *)
Definition type_name (ty : pytype) : string :=
  match ty with
  | NoneType => "NoneType"
  | int => "int"
  | str => "str"
  | list_ => "list"
  | tuple_ => "tuple"
  end.

Definition type_repr (ty : pytype) : string :=
  "<class '" ++ type_name ty ++ "'>".

(** [len(o)]: defined on strings, lists and tuples. *)
Definition len (o : pyobj) : result nat :=
  match o with
  | PyScalar (PyStr s) => Return (String.length s)
  | PyScalar v =>
      Raise (TypeError ("object of type '" ++ type_name (type_of v) ++ "' has no len()"))
  | PyList l | PyTuple l => Return (length l)
  end.

Fixpoint chars (s : string) : list pyval :=
  match s with
  | EmptyString => []
  | String c s' => PyStr (String c EmptyString) :: chars s'
  end.

(** The items produced by iterating over [o]. *)
Definition iter (o : pyobj) : result (list pyval) :=
  match o with
  | PyScalar (PyStr s) => Return (chars s)
  | PyScalar v =>
      Raise (TypeError ("cannot unpack non-iterable " ++ type_name (type_of v) ++ " object"))
  | PyList l | PyTuple l => Return l
  end.

(** [a, b = o]. *)
Definition unpack2 (o : pyobj) : result (pyval * pyval) :=
  match iter o with
  | Raise e => Raise e
  | Return [a; b] => Return (a, b)
  | Return (_ :: _ :: _ :: _) =>
      Raise (ValueError "too many values to unpack (expected 2)")
  | Return l =>
      Raise (ValueError ("not enough values to unpack (expected 2, got "
                         ++ NilZero.string_of_uint (Nat.to_uint (length l)) ++ ")"))
  end.

(** ** The order on keys *)

(** Modelled from the spec: the comparison of keys inside the absent
    [btree] module.  The tree engine works "over totally ordered keys",
    never raises, and a lookup with a key of another type than the
    stored ones "fails naturally via NotFound": integers are compared as
    integers, strings lexicographically, and values of different classes
    are never equal ([None] before integers before strings). *)
Definition compare (a b : pyval) : comparison :=
  match a, b with
  | PyNone, PyNone => Eq
  | PyNone, _ => Lt
  | PyInt _, PyNone => Gt
  | PyInt x, PyInt y => Z.compare x y
  | PyInt _, PyStr _ => Lt
  | PyStr x, PyStr y => String_as_OT.compare x y
  | PyStr _, _ => Gt
  end.

(** [a < b] in that order. *)
Definition ltb (a b : pyval) : bool :=
  match compare a b with Lt => true | _ => false end.

Definition lt (a b : pyval) : Prop := compare a b = Lt.

End Py.

Import Py.

(* ===================================================================== *)
(** * The tree engine *)
(* ===================================================================== *)

Module BTree.

(** Modelled from the spec: the [NodeKey] class of the absent [btree]
    module, an entry [NodeKey(key, value)] of the tree (the notebook
    builds them in [set] and prints them as [<NodeKey: (key, value)>]). *)
Record NodeKey : Type := mkNodeKey { key : pyval; value : pyval }.

#[global] Instance NodeKey_eq_dec : EqDecision NodeKey.
Proof. solve_decision. Defined.

(** Modelled from the spec: the [Node] class of the absent [btree]
    module.  A node holds an ordered sequence of entries and an ordered
    sequence of children, which is empty exactly on leaves. *)
#[warnings="-register-all"]
Inductive Node : Type :=
  MkNode { keys : list NodeKey; children : list Node }.

(** Modelled from the spec: [is_leaf], "true iff [children] is empty". *)
Definition is_leaf (n : Node) : bool :=
  match children n with [] => true | _ => false end.

(** Modelled from the spec: a [BTree] object of the absent [btree]
    module, with its minimum degree [t] and its root node. *)
Record BTree : Type := mkBTree { t : nat; root : Node }.

(** Modelled from the spec: the root of a tree "created empty", a leaf
    without entries. *)
Definition empty_node : Node := MkNode [] [].

(** Modelled from the spec: [BTree.__init__(t)] of the absent [btree]
    module; the degree is fixed and the tree is empty. *)
Definition init (t : nat) : BTree := mkBTree t empty_node.

(** Modelled from the spec: the comparison of two entries, by their
    keys. *)
Definition key_lt (a b : NodeKey) : bool := Py.ltb (key a) (key b).

(** ** Search *)

(** Modelled from the spec: the scan of the entries of a leaf in
    [BTree.search]. *)
Fixpoint scan (ks : list NodeKey) (k : pyval) : pyval :=
  match ks with
  | [] => PyNone
  | e :: ks' =>
      match Py.compare k (key e) with
      | Eq => value e
      | Lt => PyNone
      | Gt => scan ks' k
      end
  end.

(** Modelled from the spec: the scan of the entries of an internal node
    in [BTree.search]; [f] is the search in a child. *)
Fixpoint descend (f : Node -> pyval)
    (ks : list NodeKey) (cs : list Node) (k : pyval) {struct cs} : pyval :=
  match cs with
  | [] => PyNone
  | c :: cs' =>
      match ks with
      | [] => f c
      | e :: ks' =>
          match Py.compare k (key e) with
          | Eq => value e
          | Lt => f c
          | Gt => descend f ks' cs' k
          end
      end
  end.

(** Modelled from the spec: [BTree.search(node, key)] of the absent
    [btree] module.  "Scan of [node.keys] for [key]; if found, return
    its value; if [node] is a leaf and not found, report NotFound;
    otherwise recurse into the appropriate child interval."  NotFound
    is [None], which is what the callers in [KV] test for. *)
Fixpoint search (node : Node) (k : pyval) : pyval :=
  match node with
  | MkNode ks [] => scan ks k
  | MkNode ks cs => descend (fun c => search c k) ks cs k
  end.

(** ** Insertion *)

(** Modelled from the spec: a node is full with [2t-1] entries. *)
Definition is_full (t : nat) (n : Node) : bool :=
  (length (keys n) =? 2 * t - 1)%nat.

(** Modelled from the spec: the split of a full node.  "A full node's
    [2t-1] entries split into two nodes of [t-1] entries each; the
    median entry is promoted to the parent; children (if internal) are
    partitioned [t] to the left, [t] to the right." *)
Definition split (t : nat) (n : Node) : option (Node * NodeKey * Node) :=
  match drop (t - 1) (keys n) with
  | [] => None
  | m :: right_keys =>
      Some (MkNode (take (t - 1) (keys n)) (take t (children n)),
            m,
            MkNode right_keys (drop t (children n)))
  end.

(** Modelled from the spec: the placement of a new entry among the
    entries of a leaf, before the first entry that is not smaller. *)
Fixpoint insort (e : NodeKey) (ks : list NodeKey) : list NodeKey :=
  match ks with
  | [] => [e]
  | k :: ks' => if key_lt k e then k :: insort e ks' else e :: ks
  end.

(** Modelled from the spec: the step of [BTree.insert] at the target
    child [c] of an internal node, where [ks] and [cs] are the entries
    and the children that follow [c] in the node.  "If the target child
    is full, split that child before descending, promoting its median
    entry into the current node." *)
Definition into_child (rec : Node -> NodeKey -> Node) (t : nat)
    (e : NodeKey) (c : Node) (ks : list NodeKey) (cs : list Node)
    : list NodeKey * list Node :=
  if is_full t c then
    match split t c with
    | Some (l, m, r) =>
        if key_lt m e
        then (m :: ks, l :: rec r e :: cs)
        else (m :: ks, rec l e :: r :: cs)
    | None => (ks, rec c e :: cs)
    end
  else (ks, rec c e :: cs).

(** Modelled from the spec: the walk of [BTree.insert] along the
    entries of an internal node, up to the target child. *)
Fixpoint place (rec : Node -> NodeKey -> Node) (t : nat) (e : NodeKey)
    (ks : list NodeKey) (cs : list Node) {struct cs}
    : list NodeKey * list Node :=
  match cs with
  | [] => (ks, [])
  | c :: cs' =>
      match ks with
      | [] => into_child rec t e c [] cs'
      | k :: ks' =>
          if key_lt k e
          then let '(ks1, cs1) := place rec t e ks' cs' in (k :: ks1, c :: cs1)
          else into_child rec t e c ks cs'
      end
  end.

(** Modelled from the spec: the top-down pass of [BTree.insert] from a
    node that is not full, down to a leaf.  [fuel] bounds the depth of
    the descent; [insert] gives it the height of the tree. *)
Fixpoint insert_non_full (fuel : nat) (t : nat) (node : Node) (e : NodeKey)
    : Node :=
  match fuel with
  | O => node
  | S fuel' =>
      match children node with
      | [] => MkNode (insort e (keys node)) []
      | cs =>
          let '(ks1, cs1) := place (insert_non_full fuel' t) t e (keys node) cs in
          MkNode ks1 cs1
      end
  end.

(** Modelled from the spec: the first step of [BTree.insert].  "If the
    root is full, split it first, making a new root with a single
    median entry and two children." *)
Definition split_root (t : nat) (r : Node) : Node :=
  if is_full t r then
    match split t r with
    | Some (l, m, r') => MkNode [m] [l; r']
    | None => r
    end
  else r.

(** Height of a node: one on a leaf. *)
Fixpoint height (n : Node) : nat :=
  match n with
  | MkNode _ cs => S (list_max (map height cs))
  end.

(** Modelled from the spec: [BTree.insert(entry)] of the absent [btree]
    module.  "If the root is full, split it first, making a new root
    with a single median entry and two children, then proceed top-down:
    at each internal node, if the target child is full, split that child
    before descending, promoting its median entry into the current
    node."  No duplicate detection happens here. *)
Definition insert (b : BTree) (e : NodeKey) : BTree :=
  let r := split_root (t b) (root b) in
  mkBTree (t b) (insert_non_full (height r) (t b) r e).

(** ** Range traversals *)

(** Modelled from the spec: the test of an entry against the bound of
    [less_than], [key < bound], or [key <= bound] if [inclusive]. *)
Definition below (bound : pyval) (inclusive : bool) (e : NodeKey) : bool :=
  match Py.compare (key e) bound with
  | Lt => true
  | Eq => inclusive
  | Gt => false
  end.

(** Modelled from the spec: the test of an entry against the lower
    bound of [greater_than], [key > bound], or [key >= bound] if
    [inclusive]. *)
Definition above (bound : pyval) (inclusive : bool) (e : NodeKey) : bool :=
  match Py.compare (key e) bound with
  | Gt => true
  | Eq => inclusive
  | Lt => false
  end.

(** Modelled from the spec: the test of an entry against the upper
    bound of [greater_than], "when supplied" ([None] when it is not). *)
Definition within (upper_bound : pyval) (inclusive : bool) (e : NodeKey) : bool :=
  if is_None upper_bound then true else below upper_bound inclusive e.

(** Modelled from the spec: the scan of the entries of a leaf in the
    range traversals, which stops at the first entry over the bound. *)
Fixpoint take_while (p : NodeKey -> bool) (ks : list NodeKey) : list NodeKey :=
  match ks with
  | [] => []
  | e :: ks' => if p e then e :: take_while p ks' else []
  end.

(** Modelled from the spec: the walk of [less_than] in a node, child
    then entry, from left to right; the walk stops at the first entry
    that is not under the bound, "pruning subtrees entirely above it". *)
Fixpoint lt_walk (f : Node -> list NodeKey) (bound : pyval) (inclusive : bool)
    (ks : list NodeKey) (cs : list Node) {struct cs} : list NodeKey :=
  match cs with
  | [] => take_while (below bound inclusive) ks
  | c :: cs' =>
      f c ++ match ks with
             | [] => lt_walk f bound inclusive [] cs'
             | e :: ks' =>
                 if below bound inclusive e
                 then e :: lt_walk f bound inclusive ks' cs'
                 else []
             end
  end.

(** Modelled from the spec: [BTree.less_than(node, bound, inclusive)] of
    the absent [btree] module.  "Produces all entries with key [< bound]
    (or [<= bound] if inclusive), visiting left-to-right across subtrees
    whose key ranges fall under the bound, pruning subtrees entirely
    above it.  Result order is ascending key order." *)
Fixpoint less_than (node : Node) (bound : pyval) (inclusive : bool)
    : list NodeKey :=
  match node with
  | MkNode ks cs => lt_walk (fun c => less_than c bound inclusive) bound inclusive ks cs
  end.

(** Modelled from the spec: the test of an entry in [greater_than],
    "both bound checks are evaluated before entry inclusion". *)
Definition in_range (lower upper_bound : pyval) (inclusive : bool)
    (e : NodeKey) : bool :=
  above lower inclusive e && within upper_bound inclusive e.

(** Modelled from the spec: the walk of [greater_than] in a node.  "A
    tree-range check first eliminates subtrees wholly outside
    [[lower, upper_bound]] before entries are individually tested": the
    child before an entry is visited only if the entry is over the lower
    bound, and the walk stops at the first entry that is not under the
    upper bound. *)
Fixpoint gt_walk (f : Node -> list NodeKey) (lower upper_bound : pyval)
    (inclusive : bool) (ks : list NodeKey) (cs : list Node) {struct cs}
    : list NodeKey :=
  match cs with
  | [] =>
      List.filter (above lower inclusive)
                  (take_while (within upper_bound inclusive) ks)
  | c :: cs' =>
      match ks with
      | [] => f c ++ gt_walk f lower upper_bound inclusive [] cs'
      | e :: ks' =>
          (if Py.ltb lower (key e) then f c else [])
          ++ (if within upper_bound inclusive e
              then (if above lower inclusive e then [e] else [])
                   ++ gt_walk f lower upper_bound inclusive ks' cs'
              else [])
      end
  end.

(** Modelled from the spec:
    [BTree.greater_than(node, lower, upper_bound, inclusive)] of the
    absent [btree] module.  "Produces entries with key [> lower] (or
    [>= lower]), additionally bounded above by [upper_bound] when
    supplied (using the same inclusive flag symmetrically). [...]
    equivalent to eager in-order traversal restricted to the requested
    key interval."  [upper_bound] is [None] when not supplied. *)
Fixpoint greater_than (node : Node) (lower upper_bound : pyval)
    (inclusive : bool) : list NodeKey :=
  match node with
  | MkNode ks cs =>
      gt_walk (fun c => greater_than c lower upper_bound inclusive)
              lower upper_bound inclusive ks cs
  end.

(** ** Contents and invariants

    The in-order contents of a tree, and the properties of a tree that
    the engine maintains: an internal node has one more child than it
    has entries; the in-order walk meets the entries in strictly
    ascending key order; a node has at most [2t-1] entries, and at
    least [t-1] when it is not the root; all the leaves are at the same
    depth. *)

(** In-order walk of the entries [ks] and the subtrees [cs] of a node:
    child, entry, child, ..., child.  On a leaf it is the entries. *)
Fixpoint inorder (f : Node -> list NodeKey)
    (ks : list NodeKey) (cs : list Node) {struct cs} : list NodeKey :=
  match cs with
  | [] => ks
  | c :: cs' =>
      f c ++ match ks with
             | [] => inorder f [] cs'
             | e :: ks' => e :: inorder f ks' cs'
             end
  end.

Fixpoint entries (n : Node) : list NodeKey :=
  match n with
  | MkNode ks cs => inorder entries ks cs
  end.

Fixpoint well_shaped (n : Node) : bool :=
  match n with
  | MkNode ks cs =>
      match cs with
      | [] => true
      | _ => (length cs =? S (length ks))%nat
      end
      && forallb well_shaped cs
  end.

Fixpoint sorted (l : list NodeKey) : Prop :=
  match l with
  | [] => True
  | e :: l' => Forall (fun x => Py.lt (key e) (key x)) l' /\ sorted l'
  end.

(** At most [2t-1] entries in a node, at least [t-1] in a node that is
    not the root. *)
Fixpoint occupancy (t : nat) (is_root : bool) (n : Node) : bool :=
  match n with
  | MkNode ks cs =>
      (length ks <=? 2 * t - 1)%nat
      && (is_root || (t - 1 <=? length ks)%nat)
      && forallb (occupancy t false) cs
  end.

(** All the leaves under [n] are [d] levels under [n]. *)
Fixpoint leaves_at (d : nat) (n : Node) {struct n} : bool :=
  match n with
  | MkNode ks cs =>
      match cs with
      | [] => (d =? 0)%nat
      | _ =>
          match d with
          | O => false
          | S d' => forallb (leaves_at d') cs
          end
      end
  end.

(** The invariant of a tree of minimum degree [t]. *)
Definition btree (t : nat) (r : Node) : Prop :=
  well_shaped r = true /\
  sorted (entries r) /\
  occupancy t true r = true /\
  exists d, leaves_at d r = true.

(** The value bound to [k] in a sequence of entries, [None] if there is
    no entry for [k]. *)
Fixpoint lookup_key (k : pyval) (l : list NodeKey) : pyval :=
  match l with
  | [] => PyNone
  | e :: l' => if decide (key e = k) then value e else lookup_key k l'
  end.

(** What the recursive call of an insertion is expected to do on the
    subtrees of height at most [h]. *)
Definition inserts (rec : Node -> NodeKey -> Node) (h : nat) (e : NodeKey) : Prop :=
  forall c, height c <= h -> well_shaped c = true -> sorted (entries c) ->
    well_shaped (rec c e) = true /\ entries (rec c e) = insort e (entries c).

(** The entries and children of a node after an insertion, seen as a
    node again. *)
Definition rebuilt (e : NodeKey) (ks : list NodeKey) (cs : list Node)
    (p : list NodeKey * list Node) : Prop :=
  inorder entries (fst p) (snd p) = insort e (inorder entries ks cs) /\
  length (snd p) = S (length (fst p)) /\
  forallb well_shaped (snd p) = true.

(** What the recursive call of an insertion is expected to keep on the
    subtrees of height at most [h] that are not full and whose leaves
    are [d] levels down. *)
Definition keeps_balance (rec : Node -> NodeKey -> Node) (h t d : nat)
    (e : NodeKey) : Prop :=
  forall c, height c <= h -> length (keys c) < 2 * t - 1 ->
    well_shaped c = true ->
    occupancy t false c = true -> leaves_at d c = true ->
    occupancy t false (rec c e) = true /\ leaves_at d (rec c e) = true.

(** The entries and children of a node after an insertion: at most one
    entry more, children that are not the root, with leaves [d] levels
    down. *)
Definition balanced_children (t d : nat) (ks : list NodeKey)
    (p : list NodeKey * list Node) : Prop :=
  length ks <= length (fst p) /\ length (fst p) <= S (length ks) /\
  snd p <> [] /\
  forallb (occupancy t false) (snd p) = true /\
  forallb (leaves_at d) (snd p) = true.

(** A predicate on entries that holds under an entry where it holds. *)
Definition down_closed (p : NodeKey -> bool) : Prop :=
  forall x y, Py.lt (key x) (key y) -> p y = true -> p x = true.

End BTree.

(* ===================================================================== *)
(** * The typed store *)
(* ===================================================================== *)

Module KV.

Import BTree.

(** A [KV] object: the declared key type and the inherited [BTree]
    part ([self.t], [self.root]). *)
Record KV : Type := mkKV { type : pytype; super : BTree }.

(** [self.root] *)
Definition root (self : KV) : Node := BTree.root (super self).

(** A [dict], as the sequence of its items in iteration order. *)
Definition dict : Type := list (pyval * pyval).

(** [KV.__init__(self, type_, values=None)]: records the type and calls
    the initializer of [BTree] with degree 10.  [values] is not used. *)
Definition init (type_ : pytype) (values : option dict) : KV :=
  mkKV type_ (BTree.init 10).

(** ** Methods as computations on the object

    A method call runs on the object, ends with a value or an
    exception, leaves the object in a new state, and makes calls to the
    inherited tree engine, which are recorded in order. *)

Inductive Call : Type :=
| CallSearch (k : pyval)
| CallInsert (e : NodeKey)
| CallLessThan (bound : pyval) (inclusive : bool)
| CallGreaterThan (lower upper_bound : pyval) (inclusive : bool).

Record Outcome (A : Type) : Type :=
  mkOutcome { result_of : result A; self_of : KV; calls_of : list Call }.
Arguments mkOutcome {A} _ _ _.
Arguments result_of {A} _.
Arguments self_of {A} _.
Arguments calls_of {A} _.

(** A computation on the object. *)
Definition M (A : Type) : Type := KV -> Outcome A.

(** [return a] *)
Definition ret {A} (a : A) : M A :=
  fun self => mkOutcome (Return a) self [].

(** [raise e] *)
Definition raise {A} (e : exn) : M A :=
  fun self => mkOutcome (Raise e) self [].

(** Sequence: an exception ends the computation, with the object as it
    is at that point. *)
Definition bind {A B} (m : M A) (f : A -> M B) : M B :=
  fun self =>
    let o := m self in
    match result_of o with
    | Return a =>
        let o' := f a (self_of o) in
        mkOutcome (result_of o') (self_of o') (calls_of o ++ calls_of o')
    | Raise e => mkOutcome (Raise e) (self_of o) (calls_of o)
    end.

Notation "x <- m ;; k" := (bind m (fun x => k))
  (at level 100, m at next level, right associativity).
Notation "m ;;; k" := (bind m (fun _ => k))
  (at level 100, right associativity).

(** [self.type] *)
Definition self_type : M pytype :=
  fun self => mkOutcome (Return (type self)) self [].

(** [self.search(self.root, key)] *)
Definition self_search (k : pyval) : M pyval :=
  fun self => mkOutcome (Return (search (root self) k)) self [CallSearch k].

(** [self.insert(node)] *)
Definition self_insert (e : NodeKey) : M unit :=
  fun self =>
    mkOutcome (Return tt) (mkKV (type self) (insert (super self) e)) [CallInsert e].

(** [self.less_than(self.root, bound, inclusive=inclusive)] *)
Definition self_less_than (bound : pyval) (inclusive : bool) : M (list NodeKey) :=
  fun self =>
    mkOutcome (Return (less_than (root self) bound inclusive)) self
              [CallLessThan bound inclusive].

(** [self.greater_than(self.root, lower, upper_bound=upper, inclusive=inclusive)] *)
Definition self_greater_than (lower upper : pyval) (inclusive : bool)
    : M (list NodeKey) :=
  fun self =>
    mkOutcome (Return (greater_than (root self) lower upper inclusive)) self
              [CallGreaterThan lower upper inclusive].

(** Evaluation of an expression that may raise. *)
Definition eval {A} (r : result A) : M A :=
  fun self => mkOutcome r self [].

(** ** The exceptions of the class *)

(** The double quote character, as a string. *)
Definition dquote : string := String (ascii_of_nat 34) EmptyString.

(** [KeyError('There is no value for key "{}"'.format(key))] *)
Definition KeyNotFound (k : pyval) : exn :=
  KeyError ("There is no value for key " ++ dquote ++ str_of k ++ dquote).

(** [ValueError('Cannot store None values')] *)
Definition InvalidValue : exn := ValueError "Cannot store None values".

(** [KeyError('Key must be of type {}'.format(self.type))] *)
Definition KeyTypeMismatch (ty : pytype) : exn :=
  KeyError ("Key must be of type " ++ type_repr ty).

(** [ValueError('Cannot store duplicate key values')] *)
Definition DuplicateKey : exn := ValueError "Cannot store duplicate key values".

(** [ValueError('The first argument must be a list or tuple of length 2')] *)
Definition InvalidInterval : exn :=
  ValueError "The first argument must be a list or tuple of length 2".

(** ** [get] and [set] *)

(** [KV.get(self, key)] *)
Definition get (key : pyval) : M pyval :=
  value <- self_search key ;;
  if is_None value then raise (KeyNotFound key)
  else ret value.

(** [KV.set(self, key, value)] *)
Definition set (key value : pyval) : M unit :=
  if is_None value then raise InvalidValue
  else
    ty <- self_type ;;
    if negb (isinstance key ty) then raise (KeyTypeMismatch ty)
    else
      exists_ <- self_search key ;;
      if negb (is_None exists_) then raise DuplicateKey
      else
        let node := mkNodeKey key value in
        self_insert node.

(** ** [range_query] *)

(** The test of the first statement of [range_query]:
    [not isinstance(interval, (list, tuple)) and len(interval) != 2].
    [len] is only evaluated when the left operand is true. *)
Definition interval_rejected (interval : pyobj) : result bool :=
  if negb (isinstance_any interval [list_; tuple_]) then
    match len interval with
    | Return n => Return (negb (n =? 2)%nat)
    | Raise e => Raise e
    end
  else Return false.

(** [KV.range_query(self, interval, inclusive=False)] *)
Definition range_query (interval : pyobj) (inclusive : bool) : M (list NodeKey) :=
  rejected <- eval (interval_rejected interval) ;;
  if (rejected : bool) then raise InvalidInterval
  else
    bounds <- eval (unpack2 interval) ;;
    let '(lower, upper) := bounds in
    if is_None lower then self_less_than upper inclusive
    else self_greater_than lower upper inclusive.

(** ** [load_from_dict] *)

(** [KV.load_from_dict(self, dictionary)]:
    [for key, value in dictionary.items(): self.set(key, value)] *)
Fixpoint load_from_dict (dictionary : dict) : M unit :=
  match dictionary with
  | [] => ret tt
  | (key, value) :: rest => set key value ;;; load_from_dict rest
  end.

(** ** [dump] and [load]

    The file system and [pickle] are outside the program.  A file holds
    the sequence of objects pickled into it; opening a file and writing
    to it may fail with an exception chosen by the environment.  The
    pickled form of an object is left abstract. *)

Section Persistence.

Variable blob : Type.
Variable pickle_dumps : KV -> blob.
Variable pickle_loads : blob -> option KV.

Record World : Type := mkWorld {
  files : gmap string (list blob);
  open_fault : string -> option exn;   (* [open(path, 'wb')] raises *)
  write_fault : string -> option exn;  (* writing to [path] raises *)
  read_fault : string -> option exn    (* [open(path, 'rb')] raises *)
}.

Definition with_files (w : World) (fs : gmap string (list blob)) : World :=
  mkWorld fs (open_fault w) (write_fault w) (read_fault w).

(** [open(path, 'wb')]: the file is created or truncated. *)
Definition open_wb (path : string) (w : World) : result string * World :=
  match open_fault w path with
  | Some e => (Raise e, w)
  | None => (Return path, with_files w (<[path := []]> (files w)))
  end.

(** [open(path, 'rb')] *)
Definition open_rb (path : string) (w : World) : result string * World :=
  match read_fault w path with
  | Some e => (Raise e, w)
  | None =>
      match files w !! path with
      | Some _ => (Return path, w)
      | None => (Raise (OSError ("No such file or directory: '" ++ path ++ "'")), w)
      end
  end.

(** [pickle.dump(obj, f)] *)
Definition pickle_dump (obj : KV) (f : string) (w : World) : result unit * World :=
  match write_fault w f with
  | Some e => (Raise e, w)
  | None =>
      (Return tt,
       with_files w (<[f := default [] (files w !! f) ++ [pickle_dumps obj]]> (files w)))
  end.

(** [pickle.load(f)] *)
Definition pickle_load (f : string) (w : World) : result KV * World :=
  match files w !! f with
  | Some (b :: _) =>
      match pickle_loads b with
      | Some obj => (Return obj, w)
      | None => (Raise (UnpicklingError "invalid load key"), w)
      end
  | _ => (Raise (UnpicklingError "Ran out of input"), w)
  end.

(** [f.__exit__(...)] of a file object closes the file and returns
    [None]: an exception raised in the body of [with] is not
    suppressed. *)
Definition file_exit (f : string) (raised : option exn) : bool := false.

(** [KV.dump(self, filename)] *)
Definition dump (self : KV) (filename : string) (w : World) : result bool * World :=
  let filename := (filename ++ ".db")%string in
  match open_wb filename w with
  | (Raise e, w1) => (Raise e, w1)
  | (Return f, w1) =>
      match pickle_dump self f w1 with
      | (Return _, w2) =>
          let _ := file_exit f None in (Return true, w2)
      | (Raise e, w2) =>
          if file_exit f (Some e)
          then (Return false, w2)     (* the statement after [with] *)
          else (Raise e, w2)
      end
  end.

(** [KV.load(filename)], a static method. *)
Definition load (filename : string) (w : World) : result KV * World :=
  let filename := (filename ++ ".db")%string in
  match open_rb filename w with
  | (Raise e, w1) => (Raise e, w1)
  | (Return f, w1) =>
      let r := pickle_load f w1 in
      let _ := file_exit f None in r
  end.

(** A world without files where nothing fails. *)
Definition quiet_world : World :=
  mkWorld empty (fun _ => None) (fun _ => None) (fun _ => None).

End Persistence.

(** ** Stores built with the public interface *)

(** The store after a call of a method. *)
Inductive step : KV -> KV -> Prop :=
| step_get self key : step self (self_of (get key self))
| step_set self key value : step self (self_of (set key value self))
| step_range_query self interval inclusive :
    step self (self_of (range_query interval inclusive self))
| step_load_from_dict self dictionary :
    step self (self_of (load_from_dict dictionary self)).

(** The stores obtained from a newly constructed one by calls of the
    methods. *)
Inductive reachable : KV -> Prop :=
| reachable_init type_ values : reachable (init type_ values)
| reachable_step self self' : reachable self -> step self self' -> reachable self'.

(** The entries held by the store, in key order. *)
Definition stored (self : KV) : list NodeKey := entries (root self).

(** What the methods maintain: the degree, the invariant of the tree,
    and, for every entry, a value that is not [None] under a key of the
    declared type. *)
Definition invariant (self : KV) : Prop :=
  t (super self) = 10 /\
  btree 10 (root self) /\
  Forall (fun e => value e <> PyNone /\ isinstance (key e) (type self) = true)
         (stored self).

(** [dictionary[k]], if any. *)
Fixpoint dict_get (k : pyval) (dictionary : dict) : option pyval :=
  match dictionary with
  | [] => None
  | (k', v) :: rest => if decide (k' = k) then Some v else dict_get k rest
  end.

(** The calls to the engine made by a successful [set]. *)
Definition set_calls (kv : pyval * pyval) : list Call :=
  [CallSearch (fst kv); CallInsert (mkNodeKey (fst kv) (snd kv))].

(** The comparisons of the specification, on keys: [a <= b]. *)
Definition key_le (a b : pyval) : bool := negb (Py.ltb b a).

(** [lower <= key <= upper] if [inclusive], [lower < key < upper]
    otherwise. *)
Definition key_between (lower upper : pyval) (inclusive : bool) (e : NodeKey) : bool :=
  if inclusive then key_le lower (key e) && key_le (key e) upper
  else Py.ltb lower (key e) && Py.ltb (key e) upper.

(** [key <= upper] if [inclusive], [key < upper] otherwise. *)
Definition key_up_to (upper : pyval) (inclusive : bool) (e : NodeKey) : bool :=
  if inclusive then key_le (key e) upper else Py.ltb (key e) upper.

(** [lower <= key] if [inclusive], [lower < key] otherwise. *)
Definition key_from (lower : pyval) (inclusive : bool) (e : NodeKey) : bool :=
  if inclusive then key_le lower (key e) else Py.ltb lower (key e).

(** The entries that [set] accepts on [self]. *)
Definition accepted (self : KV) (kv : pyval * pyval) : Prop :=
  isinstance (fst kv) (type self) = true /\
  snd kv <> PyNone /\
  search (root self) (fst kv) = PyNone.

End KV.

(* ===================================================================== *)
(** * The session of the notebook *)
(* ===================================================================== *)

(** The last cell of the notebook, with a [pickle] that keeps the
    object as it is, in a world without files where nothing fails. *)
Module Session.

Import BTree KV.

(** [db = KV(int)], followed by the four calls of [db.set]. *)
Definition db : KV :=
  self_of ((set (PyInt 1) (PyStr "hello") ;;;
            set (PyInt 2) (PyStr "world") ;;;
            set (PyInt 3) (PyStr "this") ;;;
            set (PyInt 4) (PyStr "is")) (init int None)).

(** [db.dump('sample_store')] *)
Definition dumped : result bool * World KV :=
  dump KV id db "sample_store" (quiet_world KV).

(** [kv = KV.load('sample_store')] *)
Definition loaded : result KV * World KV :=
  load KV Some "sample_store" (snd dumped).

Definition kv : KV :=
  match fst loaded with
  | Return obj => obj
  | Raise _ => init int None
  end.

Definition additional_keys : dict :=
  [(PyInt 5, PyStr "a"); (PyInt 6, PyStr "simple"); (PyInt 7, PyStr "kv store")].

(** [kv.load_from_dict(additional_keys)] *)
Definition kv' : KV := self_of (load_from_dict additional_keys kv).

(** A store with enough entries for nodes to split: the keys
    [7 * i mod 50] for [i] under 50, each with its own text as value. *)
Definition fifty : dict :=
  map (fun i => (PyInt (Z.of_nat ((7 * i) mod 50)),
                 PyStr (str_of (PyInt (Z.of_nat ((7 * i) mod 50))))))
      (seq 0 50).

Definition big : KV := self_of (load_from_dict fifty (init int None)).

End Session.

(* ===================================================================== *)
(** * The lengths of the columns of the storm data *)
(* ===================================================================== *)

(** The loop of "Exploring the Dataset" in the notes on the storm data
    project, which records, for each column of the table read from the
    CSV file, the maximal length of the text of its cells. *)
Module Storm.

(** A [pandas.DataFrame] as the loop reads it: the labels of its
    columns ([list(data.columns)]), its number of rows ([len(data)]), and
    the text [str(data[col][i])] of the cell of column [col] in row [i]. *)
Record DataFrame : Type := mkDataFrame {
  columns : list string;
  nrows : nat;
  cell : string -> nat -> string
}.

(** [range(a, b)] *)
Definition range (a b : nat) : list nat := seq a (b - a).

(** The body of the inner loop:
    [if max_len < len(str(data[col][i])): max_len = len(str(data[col][i]))]. *)
Definition longer (data : DataFrame) (col : string) (max_len i : nat) : nat :=
  if (max_len <? String.length (cell data col i))%nat
  then String.length (cell data col i)
  else max_len.

(** [max_len = 0], followed by the inner loop,
    [for i in range(1,len(data))]. *)
Definition max_len_of (data : DataFrame) (col : string) : nat :=
  fold_left (longer data col) (range 1 (nrows data)) 0.

(** [str(n)] of a natural number. *)
Definition str_nat (n : nat) : string := NilZero.string_of_uint (Nat.to_uint n).

(** What the loop builds: the dictionary [col_len_dict] and the lines
    it prints. *)
Record Lengths : Type := mkLengths {
  col_len_dict : gmap string nat;
  printed : list string
}.

(** The body of the outer loop, for the column [col]. *)
Definition column_step (data : DataFrame) (st : Lengths) (col : string) : Lengths :=
  let max_len := max_len_of data col in
  mkLengths (<[col := max_len]> (col_len_dict st))
            (printed st ++ [(col ++ " " ++ str_nat max_len)%string]).

(** [col_len_dict = {}], followed by the outer loop,
    [for col in list(data.columns)]. *)
Definition col_lengths (data : DataFrame) : Lengths :=
  fold_left (column_step data) (columns data) (mkLengths empty []).

(** Two columns of the first three rows of the table shown in the
    notes. *)
Definition sample : DataFrame :=
  mkDataFrame ["FID"; "NAME"] 3
    (fun col i =>
       if String.eqb col "FID" then nth i ["2001"; "2002"; "2003"] EmptyString
       else if String.eqb col "NAME" then nth i ["NOTNAMED"; "PAULINE"; "C"] EmptyString
       else EmptyString).

(** The same table with another text in row 0. *)
Definition sample_other_first_row : DataFrame :=
  mkDataFrame (columns sample) (nrows sample)
    (fun col i => match i with O => "UNKNOWN STORM" | S _ => cell sample col i end).

End Storm.

(* ===================================================================== *)
(** * Properties of the order on keys *)
(* ===================================================================== *)

Module PyFacts.

Lemma compare_refl a : Py.compare a a = Eq.
Proof.
  destruct a as [|z|s]; simpl; trivial.
  - apply Z.compare_refl.
  - destruct (String_as_OT.compare_spec s s) as [_|H|H]; trivial;
      exfalso; revert H; apply (StrictOrder_Irreflexive (R := String_as_OT.lt)).
Qed.

Lemma compare_eq a b : Py.compare a b = Eq -> a = b.
Proof.
  destruct a as [|x|x], b as [|y|y]; simpl; try discriminate; trivial.
  - intros H. apply Z.compare_eq in H. congruence.
  - destruct (String_as_OT.compare_spec x y); try discriminate. congruence.
Qed.

Lemma string_compare_antisym x y :
  String_as_OT.compare y x = CompOpp (String_as_OT.compare x y).
Proof.
  destruct (String_as_OT.compare_spec x y) as [->|H|H]; simpl.
  - destruct (String_as_OT.compare_spec y y) as [_|H|H]; trivial;
      exfalso; revert H; apply (StrictOrder_Irreflexive (R := String_as_OT.lt)).
  - destruct (String_as_OT.compare_spec y x) as [->|H'|H']; trivial; exfalso.
    + revert H; apply (StrictOrder_Irreflexive (R := String_as_OT.lt)).
    + apply (StrictOrder_Irreflexive (R := String_as_OT.lt) x).
      eapply (StrictOrder_Transitive (R := String_as_OT.lt)); eassumption.
  - destruct (String_as_OT.compare_spec y x) as [->|H'|H']; trivial; exfalso.
    + revert H; apply (StrictOrder_Irreflexive (R := String_as_OT.lt)).
    + apply (StrictOrder_Irreflexive (R := String_as_OT.lt) x).
      eapply (StrictOrder_Transitive (R := String_as_OT.lt)); eassumption.
Qed.

Lemma compare_antisym a b : Py.compare b a = CompOpp (Py.compare a b).
Proof.
  destruct a as [|x|x], b as [|y|y]; simpl; trivial.
  - apply Z.compare_antisym.
  - apply string_compare_antisym.
Qed.

Lemma lt_trans a b c : Py.lt a b -> Py.lt b c -> Py.lt a c.
Proof.
  unfold Py.lt.
  destruct a as [|x|x], b as [|y|y], c as [|z|z]; simpl; try discriminate; trivial.
  - rewrite !Z.compare_lt_iff. lia.
  - apply (StrictOrder_Transitive (R := String_as_OT.lt)).
Qed.

Lemma lt_irrefl a : ~ Py.lt a a.
Proof. unfold Py.lt. rewrite compare_refl. discriminate. Qed.

Lemma lt_neq a b : Py.lt a b -> a <> b.
Proof. intros H ->. exact (lt_irrefl _ H). Qed.

Lemma lt_gt a b : Py.lt a b <-> Py.compare b a = Gt.
Proof.
  unfold Py.lt. rewrite (compare_antisym a b).
  destruct (Py.compare a b); simpl; split; congruence.
Qed.

Lemma ltb_lt a b : Py.ltb a b = true <-> Py.lt a b.
Proof. unfold Py.ltb, Py.lt. destruct (Py.compare a b); split; congruence. Qed.

Lemma ltb_ge a b : Py.ltb a b = false <-> Py.compare a b <> Lt.
Proof. unfold Py.ltb. destruct (Py.compare a b); split; congruence. Qed.

(** [a < b <= c] gives [a < c]. *)
Lemma lt_le_trans a b c : Py.lt a b -> Py.compare b c <> Gt -> Py.lt a c.
Proof.
  intros Hab Hbc. destruct (Py.compare b c) eqn:E; [| |congruence].
  - apply compare_eq in E. subst. trivial.
  - eapply lt_trans; eassumption.
Qed.

End PyFacts.

(* ===================================================================== *)
(** * Properties of the tree engine *)
(* ===================================================================== *)

Module BTreeFacts.

Import BTree PyFacts.

(** Induction on nodes, with the hypothesis available on every child. *)
Lemma Node_induction (P : Node -> Prop) :
  (forall ks cs, Forall P cs -> P (MkNode ks cs)) ->
  forall n, P n.
Proof.
  intros H. fix IH 1. intros [ks cs]. apply H.
  induction cs as [|c cs IHcs]; constructor; [apply IH | exact IHcs].
Qed.

(** ** Sorted sequences of entries *)

Lemma sorted_app l1 l2 :
  sorted (l1 ++ l2) <->
  sorted l1 /\ sorted l2 /\
  Forall (fun x => Forall (fun y => Py.lt (key x) (key y)) l2) l1.
Proof.
  induction l1 as [|a l1 IH]; simpl.
  - intuition.
  - rewrite Forall_app, IH, Forall_cons. intuition.
Qed.

Lemma sorted_cons_inv e l : sorted (e :: l) -> sorted l.
Proof. simpl; tauto. Qed.

Lemma sorted_app_l l1 l2 : sorted (l1 ++ l2) -> sorted l1.
Proof. rewrite sorted_app; tauto. Qed.

Lemma sorted_app_r l1 l2 : sorted (l1 ++ l2) -> sorted l2.
Proof. rewrite sorted_app; tauto. Qed.

(** In a sorted sequence [l1 ++ e :: l2], what precedes [e] is under
    it and what follows is over it. *)
Lemma sorted_mid l1 e l2 :
  sorted (l1 ++ e :: l2) ->
  Forall (fun x => Py.lt (key x) (key e)) l1 /\
  Forall (fun y => Py.lt (key e) (key y)) l2.
Proof.
  rewrite sorted_app. simpl. intros (_ & (He & _) & H). split; trivial.
  eapply List.Forall_impl; [|exact H]. simpl. intros x Hx.
  rewrite Forall_cons in Hx. tauto.
Qed.

(** ** Lookup in a sequence of entries *)

Lemma lookup_key_app_l k l1 l2 :
  Forall (fun y => key y <> k) l2 ->
  lookup_key k (l1 ++ l2) = lookup_key k l1.
Proof.
  intros H. induction l1 as [|a l1 IH]; simpl.
  - induction H as [|y l2 Hy _ IH2]; simpl; trivial.
    destruct (decide (key y = k)); [contradiction | exact IH2].
  - destruct (decide (key a = k)); trivial.
Qed.

Lemma lookup_key_app_r k l1 l2 :
  Forall (fun x => key x <> k) l1 ->
  lookup_key k (l1 ++ l2) = lookup_key k l2.
Proof.
  induction 1 as [|x l1 Hx _ IH]; simpl; trivial.
  destruct (decide (key x = k)); [contradiction | exact IH].
Qed.

Lemma lookup_key_absent k l :
  Forall (fun x => key x <> k) l -> lookup_key k l = PyNone.
Proof.
  intros H. rewrite <- (app_nil_r l). rewrite lookup_key_app_r; trivial.
Qed.

(** In a sequence without two entries for a key, the entry for a key
    gives its value. *)
Lemma lookup_key_sorted_In e l :
  sorted l -> In e l -> lookup_key (key e) l = value e.
Proof.
  induction l as [|a l IH]; simpl; [tauto|].
  intros [Ha Hs] [->|Hin].
  - destruct (decide (key e = key e)); congruence.
  - destruct (decide (key a = key e)) as [E|E]; [|auto].
    rewrite List.Forall_forall in Ha. apply Ha in Hin.
    exfalso. eapply lt_neq; eassumption.
Qed.

Lemma Forall_lt_neq_l k l :
  Forall (fun x => Py.lt (key x) k) l -> Forall (fun x => key x <> k) l.
Proof. apply List.Forall_impl. intros x H. apply lt_neq. exact H. Qed.

Lemma Forall_lt_neq_r k l :
  Forall (fun x => Py.lt k (key x)) l -> Forall (fun x => key x <> k) l.
Proof. apply List.Forall_impl. intros x H E. symmetry in E. revert E. apply lt_neq. exact H. Qed.

Lemma Forall_lt_below k k' l :
  Py.lt k k' ->
  Forall (fun x => Py.lt k' (key x)) l -> Forall (fun x => Py.lt k (key x)) l.
Proof. intros Hk. apply List.Forall_impl. intros x H. eapply lt_trans; eassumption. Qed.

Lemma Forall_lt_above k k' l :
  Py.lt k' k ->
  Forall (fun x => Py.lt (key x) k') l -> Forall (fun x => Py.lt (key x) k) l.
Proof. intros Hk. apply List.Forall_impl. intros x H. eapply lt_trans; eassumption. Qed.

(** ** Search *)

Lemma scan_lookup ks k : sorted ks -> scan ks k = lookup_key k ks.
Proof.
  induction ks as [|e ks IH]; simpl; trivial.
  intros [He Hs].
  destruct (Py.compare k (key e)) eqn:E.
  - apply compare_eq in E. subst. destruct (decide (key e = key e)); congruence.
  - destruct (decide (key e = k)) as [<-|Hne].
    + rewrite compare_refl in E. discriminate.
    + symmetry. apply lookup_key_absent, Forall_lt_neq_r.
      eapply Forall_lt_below; eassumption.
  - destruct (decide (key e = k)) as [<-|Hne].
    + rewrite compare_refl in E. discriminate.
    + auto.
Qed.

Lemma descend_lookup f k ks cs :
  length cs = S (length ks) ->
  sorted (inorder entries ks cs) ->
  Forall (fun c => sorted (entries c) -> f c = lookup_key k (entries c)) cs ->
  descend f ks cs k = lookup_key k (inorder entries ks cs).
Proof.
  revert ks. induction cs as [|c cs IH]; intros ks Hlen Hs Hf; simpl in *.
  - discriminate.
  - apply Forall_cons in Hf as [Hc Hf].
    destruct ks as [|e ks]; simpl in *.
    + destruct cs; [|discriminate]. simpl. rewrite app_nil_r in *. auto.
    + pose proof (sorted_mid _ _ _ Hs) as [Hl Hr].
      pose proof (sorted_app_l _ _ Hs) as Hsc.
      pose proof (sorted_app_r _ _ Hs) as Hsr. simpl in Hsr.
      destruct (Py.compare k (key e)) eqn:E.
      * apply compare_eq in E. subst.
        rewrite lookup_key_app_r by (apply Forall_lt_neq_l; trivial).
        simpl. destruct (decide (key e = key e)); congruence.
      * rewrite Hc by trivial.
        symmetry. apply lookup_key_app_l. constructor.
        -- intros <-. rewrite compare_refl in E. discriminate.
        -- apply Forall_lt_neq_r. eapply Forall_lt_below; eassumption.
      * rewrite IH; try tauto; [|lia].
        apply lt_gt in E.
        rewrite lookup_key_app_r.
        2:{ apply Forall_lt_neq_l. eapply Forall_lt_above; eassumption. }
        simpl. destruct (decide (key e = k)) as [<-|?]; trivial.
        exfalso. eapply lt_irrefl; eassumption.
Qed.

Lemma well_shaped_children ks cs :
  well_shaped (MkNode ks cs) = true ->
  (cs = [] \/ length cs = S (length ks)) /\ Forall (fun c => well_shaped c = true) cs.
Proof.
  simpl. rewrite andb_true_iff, forallb_forall, List.Forall_forall.
  intros [H1 H2]. split; [|exact H2].
  destruct cs; [left; trivial | right; apply Nat.eqb_eq; exact H1].
Qed.

(** [search] answers as a lookup in the in-order contents. *)
Theorem search_lookup n k :
  well_shaped n = true -> sorted (entries n) ->
  search n k = lookup_key k (entries n).
Proof.
  induction n as [ks cs IH] using Node_induction. intros Hw Hs.
  apply well_shaped_children in Hw as [Hlen Hwc].
  destruct cs as [|c cs].
  - simpl. apply scan_lookup. exact Hs.
  - destruct Hlen as [|Hlen]; [discriminate|].
    change (search (MkNode ks (c :: cs)) k)
      with (descend (fun c => search c k) ks (c :: cs) k).
    change (entries (MkNode ks (c :: cs))) with (inorder entries ks (c :: cs)) in *.
    apply descend_lookup; trivial.
    rewrite List.Forall_forall in *. intros x Hx Hsx. apply IH; auto.
Qed.

(** ** Insertion *)

Lemma key_lt_true a b : key_lt a b = true <-> Py.lt (key a) (key b).
Proof. apply ltb_lt. Qed.

Lemma insort_app_lt e l1 l2 :
  Forall (fun x => Py.lt (key x) (key e)) l1 ->
  insort e (l1 ++ l2) = l1 ++ insort e l2.
Proof.
  induction 1 as [|x l1 Hx _ IH]; simpl; trivial.
  apply key_lt_true in Hx. rewrite Hx, IH. trivial.
Qed.

Lemma insort_app_ge e l1 k l2 :
  key_lt k e = false ->
  insort e (l1 ++ k :: l2) = insort e l1 ++ k :: l2.
Proof.
  intros Hk. induction l1 as [|x l1 IH]; simpl.
  - rewrite Hk. trivial.
  - destruct (key_lt x e); simpl; [rewrite IH|]; trivial.
Qed.

Lemma insort_In e l x : In x (insort e l) <-> x = e \/ In x l.
Proof.
  induction l as [|a l IH]; simpl.
  - intuition.
  - destruct (key_lt a e); simpl; rewrite ?IH; intuition.
Qed.

Lemma insort_sorted e l :
  sorted l -> Forall (fun x => key x <> key e) l -> sorted (insort e l).
Proof.
  induction l as [|a l IH]; simpl.
  - intros _ _. split; [constructor | exact I].
  - intros [Ha Hs] Hne. apply Forall_cons in Hne as [Hae Hne].
    destruct (key_lt a e) eqn:E; simpl.
    + split; [|auto].
      apply List.Forall_forall. intros x Hx. apply insort_In in Hx as [->|Hx].
      * apply key_lt_true. exact E.
      * rewrite List.Forall_forall in Ha. auto.
    + assert (Hlt : Py.lt (key e) (key a)).
      { apply ltb_ge in E. unfold key_lt in E.
        destruct (Py.compare (key a) (key e)) eqn:C; [| congruence |].
        - apply compare_eq in C. contradiction.
        - apply lt_gt. exact C. }
      split; [|split; trivial].
      constructor; trivial. eapply Forall_lt_below; eassumption.
Qed.

Lemma lookup_key_insort k e l :
  lookup_key k (insort e l) =
  if decide (key e = k) then value e else lookup_key k l.
Proof.
  induction l as [|a l IH]; simpl; trivial.
  destruct (key_lt a e) eqn:E; simpl; trivial.
  rewrite IH. destruct (decide (key a = k)) as [<-|]; trivial.
  destruct (decide (key e = key a)) as [Heq|]; trivial.
  apply key_lt_true in E. rewrite Heq in E. exfalso. eapply lt_irrefl; eassumption.
Qed.

(** The in-order walk of a node, cut at the entry of index [j]. *)
Lemma inorder_split f j ks cs m rk :
  length cs = S (length ks) ->
  drop j ks = m :: rk ->
  inorder f ks cs =
  inorder f (take j ks) (take (S j) cs) ++ m :: inorder f rk (drop (S j) cs).
Proof.
  revert ks cs. induction j as [|j IH]; intros ks cs Hlen Hd.
  - rewrite drop_0 in Hd. subst ks.
    destruct cs as [|c cs]; [discriminate|]. simpl.
    rewrite ?take_0, ?drop_0. simpl. rewrite app_nil_r. trivial.
  - destruct ks as [|k ks]; [discriminate|].
    destruct cs as [|c cs]; [discriminate|].
    simpl in *. rewrite (IH ks cs) by (trivial; lia).
    rewrite <- app_assoc. trivial.
Qed.

Lemma list_max_take {A} (h : A -> nat) n (l : list A) :
  list_max (map h (take n l)) <= list_max (map h l).
Proof.
  revert n. induction l as [|a l IH]; intros [|n]; simpl; try lia.
  specialize (IH n). lia.
Qed.

Lemma list_max_drop {A} (h : A -> nat) n (l : list A) :
  list_max (map h (drop n l)) <= list_max (map h l).
Proof.
  revert n. induction l as [|a l IH]; intros [|n]; simpl; try lia.
  specialize (IH n). lia.
Qed.

Lemma forallb_take {A} (p : A -> bool) n (l : list A) :
  forallb p l = true -> forallb p (take n l) = true.
Proof.
  revert n. induction l as [|a l IH]; intros [|n]; simpl; trivial.
  rewrite !andb_true_iff. intros [? ?]. auto.
Qed.

Lemma forallb_drop {A} (p : A -> bool) n (l : list A) :
  forallb p l = true -> forallb p (drop n l) = true.
Proof.
  revert n. induction l as [|a l IH]; intros [|n]; simpl; trivial.
  rewrite !andb_true_iff. intros [? ?]. auto.
Qed.

(** The halves of a split node hold its contents, around the median. *)
Lemma split_spec t c l m r :
  1 <= t -> well_shaped c = true ->
  split t c = Some (l, m, r) ->
  entries l ++ m :: entries r = entries c /\
  well_shaped l = true /\ well_shaped r = true /\
  height l <= height c /\ height r <= height c.
Proof.
  intros Ht Hw Hsp. destruct t as [|j]; [lia|]. clear Ht.
  destruct c as [ks cs]. unfold split in Hsp.
  replace (S j - 1) with j in Hsp by lia. simpl in Hsp.
  destruct (drop j ks) as [|m' rk] eqn:Hd; [discriminate|].
  injection Hsp as Hl Hm Hr. subst l r m'.
  pose proof Hw as Hw'. simpl in Hw'. apply andb_true_iff in Hw' as [Hlen Hall].
  assert (Hj : j < length ks).
  { destruct (Nat.lt_ge_cases j (length ks)) as [?|Hge]; trivial.
    rewrite drop_ge in Hd by lia. discriminate. }
  assert (Hlk : length ks = j + S (length rk)).
  { rewrite <- (take_drop j ks) at 1. rewrite length_app, Hd, length_take. simpl. lia. }
  destruct cs as [|c0 cs].
  - repeat split; simpl; try lia.
    rewrite <- Hd. apply take_drop.
  - apply Nat.eqb_eq in Hlen. repeat split.
    + change (entries (MkNode ks (c0 :: cs))) with (inorder entries ks (c0 :: cs)).
      rewrite (inorder_split entries j ks (c0 :: cs) m rk Hlen Hd). trivial.
    + change (well_shaped (MkNode (take j ks) (take (S j) (c0 :: cs))))
        with ((length (take (S j) (c0 :: cs)) =? S (length (take j ks)))%nat
              && forallb well_shaped (take (S j) (c0 :: cs))).
      rewrite forallb_take by trivial. rewrite andb_true_r.
      apply Nat.eqb_eq. simpl in Hlen. rewrite !length_take. simpl. lia.
    + simpl. rewrite forallb_drop by (simpl in Hall; apply andb_true_iff in Hall; tauto).
      rewrite andb_true_r.
      destruct (drop j cs) as [|d ds] eqn:Hdc; trivial.
      apply Nat.eqb_eq. rewrite <- Hdc, length_drop. simpl in *. lia.
    + simpl. apply le_n_S. apply (list_max_take height (S j) (c0 :: cs)).
    + simpl. apply le_n_S. apply (list_max_drop height (S j) (c0 :: cs)).
Qed.

Lemma into_child_spec rec t e h c ks cs :
  1 <= t -> inserts rec h e ->
  height c <= h ->
  length cs = length ks ->
  forallb well_shaped (c :: cs) = true ->
  sorted (inorder entries ks (c :: cs)) ->
  match ks with [] => True | k :: _ => key_lt k e = false end ->
  rebuilt e ks (c :: cs) (into_child rec t e c ks cs).
Proof.
  intros Ht Hrec Hh Hlen Hw Hs Hhd.
  simpl in Hw. apply andb_true_iff in Hw as [Hwc Hwcs].
  set (tail := match ks with
               | [] => inorder entries [] cs
               | k :: ks' => k :: inorder entries ks' cs
               end).
  assert (Hin : inorder entries ks (c :: cs) = entries c ++ tail) by reflexivity.
  assert (Htail : forall l, insort e (l ++ tail) = insort e l ++ tail).
  { intros l. subst tail. destruct ks as [|k ks'].
    - destruct cs; [|discriminate]. simpl. rewrite !app_nil_r. trivial.
    - apply insort_app_ge. exact Hhd. }
  rewrite Hin in Hs.
  assert (Hplain : rebuilt e ks (c :: cs) (ks, rec c e :: cs)).
  { destruct (Hrec c Hh Hwc (sorted_app_l _ _ Hs)) as [Hw' He'].
    unfold rebuilt. simpl fst; simpl snd. repeat split.
    - rewrite Hin, Htail, <- He'. reflexivity.
    - simpl. lia.
    - simpl. rewrite Hw', Hwcs. trivial. }
  unfold into_child. destruct (is_full t c); [|exact Hplain].
  destruct (split t c) as [[[l m] r]|] eqn:Hsp; [|exact Hplain].
  destruct (split_spec t c l m r Ht Hwc Hsp) as (Hc & Hwl & Hwr & Hhl & Hhr).
  rewrite <- Hc in Hs. rewrite <- app_assoc in Hs. simpl in Hs.
  pose proof (sorted_mid _ _ _ Hs) as [Hlm _].
  assert (Hsl : sorted (entries l)) by (eapply sorted_app_l; eassumption).
  assert (Hsr : sorted (entries r)).
  { apply sorted_app_r in Hs. apply sorted_cons_inv in Hs.
    eapply sorted_app_l; eassumption. }
  destruct (key_lt m e) eqn:Hme; unfold rebuilt; simpl fst; simpl snd.
  - destruct (Hrec r (Nat.le_trans _ _ _ Hhr Hh) Hwr Hsr) as [Hw' He'].
    repeat split.
    + rewrite Hin, <- Hc, <- app_assoc. simpl. fold tail.
      rewrite He', <- (Htail (entries r)).
      change (entries l ++ m :: entries r ++ tail)
        with (entries l ++ [m] ++ entries r ++ tail).
      rewrite (app_assoc (entries l) [m]).
      rewrite (insort_app_lt e (entries l ++ [m]));
        [rewrite <- app_assoc; reflexivity|].
      apply Forall_app. split.
      * apply key_lt_true in Hme. eapply Forall_lt_above; eassumption.
      * constructor; [apply key_lt_true; exact Hme | constructor].
    + simpl. lia.
    + simpl. rewrite Hwl, Hw', Hwcs. trivial.
  - destruct (Hrec l (Nat.le_trans _ _ _ Hhl Hh) Hwl Hsl) as [Hw' He'].
    repeat split.
    + rewrite Hin, <- Hc, <- app_assoc. simpl. fold tail.
      rewrite He'. symmetry. apply insort_app_ge. exact Hme.
    + simpl. lia.
    + simpl. rewrite Hwr, Hw', Hwcs. trivial.
Qed.

Lemma place_spec rec t e h ks cs :
  1 <= t -> inserts rec h e ->
  Forall (fun c => height c <= h) cs ->
  length cs = S (length ks) ->
  forallb well_shaped cs = true ->
  sorted (inorder entries ks cs) ->
  rebuilt e ks cs (place rec t e ks cs).
Proof.
  intros Ht Hrec. revert ks.
  induction cs as [|c cs IH]; intros ks Hh Hlen Hw Hs; [discriminate|].
  apply Forall_cons in Hh as [Hhc Hh].
  destruct ks as [|k ks].
  - simpl. eapply into_child_spec; eauto; simpl in Hlen; lia.
  - simpl. destruct (key_lt k e) eqn:Hke.
    + simpl in Hs, Hw, Hlen. apply andb_true_iff in Hw as [Hwc Hwcs].
      pose proof (sorted_mid _ _ _ Hs) as [Hlk _].
      assert (Hs' : sorted (inorder entries ks cs)).
      { apply sorted_app_r in Hs. apply sorted_cons_inv in Hs. exact Hs. }
      destruct (IH ks Hh ltac:(lia) Hwcs Hs') as (Hc & Hl & Hw').
      destruct (place rec t e ks cs) as [ks1 cs1]. simpl in *.
      unfold rebuilt. simpl. repeat split.
      * rewrite Hc.
        change (entries c ++ k :: inorder entries ks cs)
          with (entries c ++ [k] ++ inorder entries ks cs).
        rewrite (app_assoc (entries c) [k]).
        rewrite (insort_app_lt e (entries c ++ [k]));
          [rewrite <- app_assoc; reflexivity|].
        apply key_lt_true in Hke. apply Forall_app. split.
        -- eapply Forall_lt_above; eassumption.
        -- constructor; [exact Hke | constructor].
      * lia.
      * rewrite Hwc, Hw'. trivial.
    + eapply into_child_spec; eauto; simpl in Hlen; lia.
Qed.

Lemma height_children_le (cs : list Node) :
  Forall (fun c => height c <= list_max (map height cs)) cs.
Proof.
  induction cs as [|c cs IH]; constructor; simpl; [lia|].
  eapply List.Forall_impl; [|exact IH]. simpl. intros; lia.
Qed.

Lemma insert_non_full_spec t e fuel :
  1 <= t ->
  forall n, height n <= fuel -> well_shaped n = true -> sorted (entries n) ->
    well_shaped (insert_non_full fuel t n e) = true /\
    entries (insert_non_full fuel t n e) = insort e (entries n).
Proof.
  intros Ht. induction fuel as [|fuel IH]; intros [ks cs] Hh Hw Hs.
  - simpl in Hh. lia.
  - simpl in Hh. apply le_S_n in Hh.
    destruct cs as [|c cs]; [simpl; auto|].
    pose proof Hw as Hw'. simpl in Hw'. apply andb_true_iff in Hw' as [Hlen Hall].
    apply Nat.eqb_eq in Hlen.
    assert (Hhc : Forall (fun c => height c <= fuel) (c :: cs)).
    { eapply List.Forall_impl; [|apply height_children_le].
      intros a Ha. cbv beta in Ha. lia. }
    assert (Hlen' : length (c :: cs) = S (length ks)) by (simpl; lia).
    destruct (place_spec (insert_non_full fuel t) t e fuel ks (c :: cs)
                Ht IH Hhc Hlen' Hall Hs) as (Hc & Hl & Hw').
    change (insert_non_full (S fuel) t (MkNode ks (c :: cs)) e)
      with (let '(ks1, cs1) := place (insert_non_full fuel t) t e ks (c :: cs)
            in MkNode ks1 cs1).
    destruct (place (insert_non_full fuel t) t e ks (c :: cs)) as [ks1 cs1].
    simpl in Hc, Hl, Hw'. split.
    + simpl. rewrite Hw', andb_true_r.
      destruct cs1; trivial. apply Nat.eqb_eq. exact Hl.
    + exact Hc.
Qed.

Lemma split_root_spec t r :
  1 <= t -> well_shaped r = true ->
  well_shaped (split_root t r) = true /\ entries (split_root t r) = entries r.
Proof.
  intros Ht Hw. unfold split_root.
  destruct (is_full t r); [|auto].
  destruct (split t r) as [[[l m] r']|] eqn:Hsp; [|auto].
  destruct (split_spec t r l m r' Ht Hw Hsp) as (Hc & Hwl & Hwr & _).
  split.
  - simpl. rewrite Hwl, Hwr. trivial.
  - rewrite <- Hc. simpl. rewrite app_nil_r. trivial.
Qed.

(** [insert] puts the entry at its place in the in-order contents, and
    keeps the shape of the tree. *)
Theorem insert_spec b e :
  1 <= t b -> well_shaped (root b) = true -> sorted (entries (root b)) ->
  t (insert b e) = t b /\
  well_shaped (root (insert b e)) = true /\
  entries (root (insert b e)) = insort e (entries (root b)).
Proof.
  intros Ht Hw Hs. unfold insert. simpl.
  destruct (split_root_spec (t b) (root b) Ht Hw) as [Hw' Hc].
  rewrite <- Hc in Hs.
  destruct (insert_non_full_spec (t b) e (height (split_root (t b) (root b))) Ht
              (split_root (t b) (root b)) (Nat.le_refl _) Hw' Hs) as [Hw'' Hc''].
  rewrite Hc'', Hc. auto.
Qed.

(** ** Occupancy and depth *)

Lemma length_insort e ks : length (insort e ks) = S (length ks).
Proof.
  induction ks as [|k ks IH]; simpl; trivial.
  destruct (key_lt k e); simpl; rewrite ?IH; trivial.
Qed.

Lemma occupancy_inv t b ks cs :
  occupancy t b (MkNode ks cs) = true ->
  length ks <= 2 * t - 1 /\
  (b = false -> t - 1 <= length ks) /\
  forallb (occupancy t false) cs = true.
Proof.
  simpl. rewrite !andb_true_iff, orb_true_iff, !Nat.leb_le.
  intros [[H1 H2] H3]. repeat split; trivial.
  intros ->. destruct H2; [discriminate | trivial].
Qed.

Lemma occupancy_intro t b ks cs :
  length ks <= 2 * t - 1 ->
  (b = false -> t - 1 <= length ks) ->
  forallb (occupancy t false) cs = true ->
  occupancy t b (MkNode ks cs) = true.
Proof.
  intros H1 H2 H3. simpl. rewrite !andb_true_iff, orb_true_iff, !Nat.leb_le.
  repeat split; trivial. destruct b; auto.
Qed.

Lemma leaves_at_internal d ks c cs :
  leaves_at d (MkNode ks (c :: cs)) = true <->
  exists d', d = S d' /\ forallb (leaves_at d') (c :: cs) = true.
Proof.
  split.
  - intros H. destruct d as [|d']; [discriminate|]. exists d'. auto.
  - intros (d' & -> & H). exact H.
Qed.

(** A full node has a median. *)
Lemma split_full t c :
  1 <= t -> is_full t c = true -> exists l m r, split t c = Some (l, m, r).
Proof.
  intros Ht Hf. unfold is_full in Hf. apply Nat.eqb_eq in Hf. unfold split.
  destruct (drop (t - 1) (keys c)) as [|m rk] eqn:Hd; [|eauto].
  apply (f_equal length) in Hd. rewrite length_drop in Hd. simpl in Hd. lia.
Qed.

(** The halves of a full node have [t-1] entries and the depth of the
    node. *)
Lemma split_balance t c l m r d b :
  1 <= t -> is_full t c = true -> well_shaped c = true ->
  occupancy t b c = true -> leaves_at d c = true ->
  split t c = Some (l, m, r) ->
  length (keys l) = t - 1 /\ length (keys r) = t - 1 /\
  occupancy t false l = true /\ occupancy t false r = true /\
  leaves_at d l = true /\ leaves_at d r = true.
Proof.
  intros Ht Hf Hw Ho Hd Hsp. destruct t as [|j]; [lia|]. clear Ht.
  destruct c as [ks cs]. unfold is_full in Hf. apply Nat.eqb_eq in Hf.
  unfold split in Hsp. simpl in Hf, Hsp.
  replace (j - 0) with j in Hsp by lia.
  destruct (drop j ks) as [|m' rk] eqn:Hdk; [discriminate|].
  injection Hsp as Hl Hm Hr. subst l r m'.
  assert (Hrk : length rk = j).
  { apply (f_equal length) in Hdk. rewrite length_drop in Hdk. simpl in Hdk. lia. }
  assert (Htk : length (take j ks) = j) by (rewrite length_take; lia).
  apply occupancy_inv in Ho as (_ & _ & Hoc).
  simpl keys. split; [lia|]. split; [lia|]. repeat split.
  - apply occupancy_intro; [lia | lia | apply forallb_take; exact Hoc].
  - apply occupancy_intro; [lia | lia | apply forallb_drop; exact Hoc].
  - destruct cs as [|c0 cs]; [exact Hd|].
    apply leaves_at_internal in Hd as (d' & -> & Hd).
    change (take (S j) (c0 :: cs)) with (c0 :: take j cs).
    apply leaves_at_internal. exists d'. split; trivial.
    apply (forallb_take _ (S j) (c0 :: cs)). exact Hd.
  - destruct cs as [|c0 cs]; [exact Hd|].
    apply leaves_at_internal in Hd as (d' & -> & Hd).
    apply well_shaped_children in Hw as [[Hnil|Hlen] _]; [discriminate|].
    destruct (drop (S j) (c0 :: cs)) as [|c1 cs1] eqn:Hdc.
    + apply (f_equal length) in Hdc. rewrite length_drop in Hdc. simpl in *. lia.
    + apply leaves_at_internal. exists d'. split; trivial.
      rewrite <- Hdc. apply forallb_drop. exact Hd.
Qed.

Lemma into_child_balance rec t e h d c ks cs :
  1 <= t -> keeps_balance rec h t d e ->
  height c <= h -> well_shaped c = true ->
  forallb (occupancy t false) (c :: cs) = true ->
  forallb (leaves_at d) (c :: cs) = true ->
  balanced_children t d ks (into_child rec t e c ks cs).
Proof.
  intros Ht Hrec Hh Hw Ho Hd.
  simpl in Ho, Hd. apply andb_true_iff in Ho as [Hoc Hocs].
  apply andb_true_iff in Hd as [Hdc Hdcs].
  unfold into_child. destruct (is_full t c) eqn:Hf.
  - destruct (split_full t c Ht Hf) as (l & m & r & Hsp). rewrite Hsp.
    destruct (split_spec t c l m r Ht Hw Hsp) as (_ & Hwl & Hwr & Hhl & Hhr).
    destruct (split_balance t c l m r d false Ht Hf Hw Hoc Hdc Hsp)
      as (Hll & Hlr & Hol & Hor & Hdl & Hdr).
    destruct (key_lt m e).
    + destruct (Hrec r) as [Ho' Hd']; trivial; [lia|lia|].
      unfold balanced_children. simpl.
      rewrite Hol, Ho', Hocs, Hdl, Hd', Hdcs. repeat split; auto; discriminate.
    + destruct (Hrec l) as [Ho' Hd']; trivial; [lia|lia|].
      unfold balanced_children. simpl.
      rewrite Hor, Ho', Hocs, Hdr, Hd', Hdcs. repeat split; auto; discriminate.
  - destruct (Hrec c) as [Ho' Hd']; trivial.
    { unfold is_full in Hf. apply Nat.eqb_neq in Hf.
      destruct c as [cks ccs]. apply occupancy_inv in Hoc as (Hle & _). simpl in *. lia. }
    unfold balanced_children. simpl.
    rewrite Ho', Hocs, Hd', Hdcs. repeat split; auto; discriminate.
Qed.

Lemma place_balance rec t e h d ks cs :
  1 <= t -> keeps_balance rec h t d e ->
  cs <> [] ->
  Forall (fun c => height c <= h) cs ->
  forallb well_shaped cs = true ->
  forallb (occupancy t false) cs = true ->
  forallb (leaves_at d) cs = true ->
  balanced_children t d ks (place rec t e ks cs).
Proof.
  intros Ht Hrec. revert ks.
  induction cs as [|c cs IH]; intros ks Hne Hh Hw Ho Hd; [congruence|].
  apply Forall_cons in Hh as [Hhc Hh].
  pose proof Hw as Hw'. simpl in Hw'. apply andb_true_iff in Hw' as [Hwc Hwcs].
  destruct ks as [|k ks].
  - simpl. eapply into_child_balance; eauto.
  - simpl. destruct (key_lt k e).
    + simpl in Ho, Hd. apply andb_true_iff in Ho as [Hoc Hocs].
      apply andb_true_iff in Hd as [Hdc Hdcs].
      destruct cs as [|c' cs'].
      * simpl. unfold balanced_children. simpl. rewrite Hoc, Hdc.
        repeat split; auto; discriminate.
      * destruct (IH ks ltac:(discriminate) Hh Hwcs Hocs Hdcs) as (Hl1 & Hl2 & Hn & Ho' & Hd').
        destruct (place rec t e ks (c' :: cs')) as [ks1 cs1].
        unfold balanced_children in *. simpl in *.
        rewrite Hoc, Hdc, Ho', Hd'. repeat split; auto; try lia; discriminate.
    + eapply into_child_balance; eauto.
Qed.

Lemma insert_non_full_balance t e fuel :
  1 <= t ->
  forall n b d,
    height n <= fuel -> length (keys n) < 2 * t - 1 ->
    well_shaped n = true -> occupancy t b n = true -> leaves_at d n = true ->
    occupancy t b (insert_non_full fuel t n e) = true /\
    leaves_at d (insert_non_full fuel t n e) = true.
Proof.
  intros Ht. induction fuel as [|fuel IH]; intros [ks cs] b d Hh Hlen Hw Ho Hd.
  - simpl in Hh. lia.
  - simpl in Hh. apply le_S_n in Hh. simpl in Hlen.
    apply occupancy_inv in Ho as (Hle & Hmin & Hoc).
    destruct cs as [|c cs].
    + simpl. split; [|exact Hd].
      rewrite !andb_true_iff, orb_true_iff, !Nat.leb_le, length_insort.
      repeat split; [lia|]. destruct b; [left; trivial | right].
      specialize (Hmin eq_refl). lia.
    + apply well_shaped_children in Hw as [_ Hwc].
      apply leaves_at_internal in Hd as (d' & -> & Hd).
      assert (Hhc : Forall (fun c => height c <= fuel) (c :: cs)).
      { eapply List.Forall_impl; [|apply height_children_le].
        intros a Ha. cbv beta in Ha. lia. }
      assert (Hrec : keeps_balance (insert_non_full fuel t) fuel t d' e).
      { intros x Hx Hlx Hwx Hox Hdx. apply IH; trivial. }
      assert (Hwc' : forallb well_shaped (c :: cs) = true).
      { apply forallb_forall. rewrite List.Forall_forall in Hwc. exact Hwc. }
      pose proof (place_balance (insert_non_full fuel t) t e fuel d' ks (c :: cs)
                    Ht Hrec ltac:(discriminate) Hhc Hwc' Hoc Hd)
        as (Hl1 & Hl2 & Hn & Ho' & Hd').
      change (insert_non_full (S fuel) t (MkNode ks (c :: cs)) e)
        with (let '(ks1, cs1) := place (insert_non_full fuel t) t e ks (c :: cs)
              in MkNode ks1 cs1).
      destruct (place (insert_non_full fuel t) t e ks (c :: cs)) as [ks1 cs1].
      simpl in Hl1, Hl2, Hn, Ho', Hd'. split.
      * apply occupancy_intro; trivial; [lia|].
        intros Hb. specialize (Hmin Hb). lia.
      * destruct cs1 as [|c1 cs1]; [congruence|].
        apply leaves_at_internal. exists d'. auto.
Qed.

Lemma split_root_balance t r d :
  2 <= t -> well_shaped r = true ->
  occupancy t true r = true -> leaves_at d r = true ->
  length (keys (split_root t r)) < 2 * t - 1 /\
  occupancy t true (split_root t r) = true /\
  exists d', leaves_at d' (split_root t r) = true.
Proof.
  intros Ht Hw Ho Hd. unfold split_root. destruct (is_full t r) eqn:Hf.
  - destruct (split_full t r ltac:(lia) Hf) as (l & m & r' & Hsp). rewrite Hsp.
    destruct (split_balance t r l m r' d true ltac:(lia) Hf Hw Ho Hd Hsp)
      as (_ & _ & Hol & Hor & Hdl & Hdr).
    simpl keys. repeat split.
    + simpl. lia.
    + apply occupancy_intro; [simpl; lia | discriminate |].
      simpl. rewrite Hol, Hor. trivial.
    + exists (S d). simpl. rewrite Hdl, Hdr. trivial.
  - repeat split; eauto.
    unfold is_full in Hf. apply Nat.eqb_neq in Hf.
    destruct r as [ks cs]. apply occupancy_inv in Ho as (Hle & _). simpl in *. lia.
Qed.

(** [insert] of an entry under a new key keeps the invariant of the
    tree, and adds the entry to the contents. *)
Theorem insert_btree b e :
  2 <= t b -> btree (t b) (root b) ->
  Forall (fun x => key x <> key e) (entries (root b)) ->
  btree (t b) (root (insert b e)) /\
  entries (root (insert b e)) = insort e (entries (root b)).
Proof.
  intros Ht (Hw & Hs & Ho & d & Hd) Hfresh.
  destruct (insert_spec b e ltac:(lia) Hw Hs) as (_ & Hw' & Hc').
  split; [|exact Hc']. unfold btree. rewrite Hc'. repeat split; trivial.
  - apply insort_sorted; trivial.
  - unfold insert. simpl.
    destruct (split_root_spec (t b) (root b) ltac:(lia) Hw) as [Hws _].
    destruct (split_root_balance (t b) (root b) d Ht Hw Ho Hd) as (Hlen & Ho1 & d1 & Hd1).
    apply (insert_non_full_balance (t b) e _ ltac:(lia) _ true d1); trivial.
  - unfold insert. simpl.
    destruct (split_root_spec (t b) (root b) ltac:(lia) Hw) as [Hws _].
    destruct (split_root_balance (t b) (root b) d Ht Hw Ho Hd) as (Hlen & Ho1 & d1 & Hd1).
    exists d1.
    apply (insert_non_full_balance (t b) e _ ltac:(lia) _ true d1); trivial.
Qed.

(** ** Range traversals *)

Lemma below_down_closed b inc : down_closed (below b inc).
Proof.
  intros x y Hxy. unfold below.
  destruct (Py.compare (key y) b) eqn:Ey; try discriminate.
  - intros _. apply compare_eq in Ey. subst b. rewrite Hxy. trivial.
  - intros _. rewrite (lt_trans _ _ _ Hxy Ey). trivial.
Qed.

Lemma within_down_closed ub inc : down_closed (within ub inc).
Proof.
  unfold within. destruct (is_None ub).
  - intros x y _ _. trivial.
  - apply below_down_closed.
Qed.

Lemma above_lt_false lower inc e x :
  Py.ltb lower (key e) = false -> Py.lt (key x) (key e) ->
  above lower inc x = false.
Proof.
  intros Hle Hx. unfold above.
  assert (H : Py.lt (key x) lower).
  { eapply lt_le_trans; [exact Hx|].
    rewrite ltb_ge in Hle. rewrite compare_antisym in Hle.
    destruct (Py.compare (key e) lower); simpl in *; congruence. }
  rewrite H. trivial.
Qed.

Lemma filter_none p l :
  Forall (fun x => p x = false) l -> List.filter p l = @nil NodeKey.
Proof. induction 1 as [|x l Hx _ IH]; simpl; [|rewrite Hx]; trivial. Qed.

Lemma filter_none_over p e l :
  down_closed p -> p e = false ->
  Forall (fun y => Py.lt (key e) (key y)) l -> List.filter p l = [].
Proof.
  intros Hp He Hl. apply filter_none.
  eapply List.Forall_impl; [|exact Hl]. intros y Hy. cbv beta in Hy.
  destruct (p y) eqn:E; trivial. rewrite (Hp _ _ Hy E) in He. discriminate.
Qed.

Lemma take_while_filter p ks :
  down_closed p -> sorted ks -> take_while p ks = List.filter p ks.
Proof.
  intros Hp. induction ks as [|e ks IH]; simpl; trivial.
  intros [He Hs]. destruct (p e) eqn:E.
  - rewrite IH; trivial.
  - symmetry. eapply filter_none_over; eassumption.
Qed.

Lemma lt_walk_filter f b inc ks cs :
  sorted (inorder entries ks cs) ->
  Forall (fun c => sorted (entries c) -> f c = List.filter (below b inc) (entries c)) cs ->
  lt_walk f b inc ks cs = List.filter (below b inc) (inorder entries ks cs).
Proof.
  revert ks. induction cs as [|c cs IH]; intros ks Hs Hf; simpl in *.
  - apply take_while_filter; [apply below_down_closed | exact Hs].
  - apply Forall_cons in Hf as [Hc Hf].
    rewrite List.filter_app, Hc by (eapply sorted_app_l; eassumption).
    f_equal. destruct ks as [|e ks].
    + apply IH; trivial. eapply sorted_app_r; eassumption.
    + apply sorted_app_r in Hs. simpl in *. destruct Hs as [He Hs].
      destruct (below b inc e) eqn:E.
      * rewrite IH; trivial.
      * symmetry. eapply filter_none_over; [apply below_down_closed | |]; eassumption.
Qed.

(** [less_than] selects, in order, the entries under the bound. *)
Theorem less_than_filter n b inc :
  sorted (entries n) ->
  less_than n b inc = List.filter (below b inc) (entries n).
Proof.
  induction n as [ks cs IH] using Node_induction. intros Hs.
  apply lt_walk_filter; trivial.
Qed.

Lemma gt_leaf_filter lower ub inc ks :
  sorted ks ->
  List.filter (above lower inc) (take_while (within ub inc) ks) =
  List.filter (in_range lower ub inc) ks.
Proof.
  induction ks as [|e ks IH]; simpl; trivial.
  intros [He Hs]. unfold in_range at 1.
  destruct (within ub inc e) eqn:E; simpl.
  - rewrite andb_true_r. rewrite IH; trivial.
  - rewrite andb_false_r. symmetry. apply filter_none.
    eapply List.Forall_impl; [|exact He]. intros y Hy. cbv beta in Hy.
    unfold in_range. destruct (within ub inc y) eqn:Ey; [|apply andb_false_r].
    rewrite (within_down_closed ub inc _ _ Hy Ey) in E. discriminate.
Qed.

Lemma gt_walk_filter f lower ub inc ks cs :
  sorted (inorder entries ks cs) ->
  Forall (fun c => sorted (entries c) ->
                   f c = List.filter (in_range lower ub inc) (entries c)) cs ->
  gt_walk f lower ub inc ks cs =
  List.filter (in_range lower ub inc) (inorder entries ks cs).
Proof.
  revert ks. induction cs as [|c cs IH]; intros ks Hs Hf; simpl in *.
  - apply gt_leaf_filter. exact Hs.
  - apply Forall_cons in Hf as [Hc Hf].
    rewrite List.filter_app.
    destruct ks as [|e ks].
    + rewrite Hc by (eapply sorted_app_l; eassumption).
      f_equal. apply IH; trivial. eapply sorted_app_r; eassumption.
    + pose proof (sorted_mid _ _ _ Hs) as [Hl Hr].
      pose proof (sorted_app_l _ _ Hs) as Hsc.
      apply sorted_app_r in Hs. simpl in Hs. destruct Hs as [_ Hs].
      f_equal.
      * destruct (Py.ltb lower (key e)) eqn:E; [auto|].
        symmetry. apply filter_none.
        eapply List.Forall_impl; [|exact Hl]. intros x Hx. cbv beta in Hx.
        unfold in_range. rewrite (above_lt_false lower inc e x E Hx). trivial.
      * simpl. unfold in_range at 1.
        destruct (within ub inc e) eqn:E.
        -- rewrite andb_true_r. rewrite IH by trivial.
           destruct (above lower inc e); trivial.
        -- rewrite andb_false_r. symmetry. apply filter_none.
           eapply List.Forall_impl; [|exact Hr]. intros y Hy. cbv beta in Hy.
           unfold in_range. destruct (within ub inc y) eqn:Ey; [|apply andb_false_r].
           rewrite (within_down_closed ub inc _ _ Hy Ey) in E. discriminate.
Qed.

(** [greater_than] selects, in order, the entries of the interval. *)
Theorem greater_than_filter n lower ub inc :
  sorted (entries n) ->
  greater_than n lower ub inc = List.filter (in_range lower ub inc) (entries n).
Proof.
  induction n as [ks cs IH] using Node_induction. intros Hs.
  apply gt_walk_filter; trivial.
Qed.

Lemma filter_sorted p l : sorted l -> sorted (List.filter p l).
Proof.
  induction l as [|e l IH]; simpl; trivial.
  intros [He Hs]. destruct (p e); simpl; auto.
  split; auto. apply List.Forall_forall. intros x Hx.
  apply List.filter_In in Hx as [Hx _].
  rewrite List.Forall_forall in He. auto.
Qed.

End BTreeFacts.

(* ===================================================================== *)
(** * Properties of the store *)
(* ===================================================================== *)

Module KVFacts.

Import BTree KV PyFacts BTreeFacts.

Lemma is_None_true v : is_None v = true <-> v = PyNone.
Proof. destruct v; simpl; split; congruence. Qed.

Lemma is_None_false v : is_None v = false <-> v <> PyNone.
Proof. destruct v; simpl; split; congruence. Qed.

(** The four ways out of [set]. *)
Lemma set_cases key value self :
  set key value self =
  if is_None value then mkOutcome (Raise InvalidValue) self []
  else if negb (isinstance key (type self))
  then mkOutcome (Raise (KeyTypeMismatch (type self))) self []
  else if negb (is_None (search (root self) key))
  then mkOutcome (Raise DuplicateKey) self [CallSearch key]
  else mkOutcome (Return tt)
         (mkKV (type self) (insert (super self) (mkNodeKey key value)))
         [CallSearch key; CallInsert (mkNodeKey key value)].
Proof.
  unfold set. destruct (is_None value); [reflexivity|].
  unfold bind, self_type. simpl.
  destruct (isinstance key (type self)); simpl; [|reflexivity].
  destruct (is_None (search (root self) key)); reflexivity.
Qed.

Lemma get_cases key self :
  get key self =
  if is_None (search (root self) key)
  then mkOutcome (Raise (KeyNotFound key)) self [CallSearch key]
  else mkOutcome (Return (search (root self) key)) self [CallSearch key].
Proof.
  unfold get, bind, self_search. simpl.
  destruct (is_None (search (root self) key)); reflexivity.
Qed.

Lemma invariant_init type_ values : invariant (init type_ values).
Proof.
  unfold invariant, init, stored, btree. simpl.
  repeat split; try constructor. exists 0. reflexivity.
Qed.

Lemma search_stored self k :
  invariant self -> search (root self) k = lookup_key k (stored self).
Proof. intros (_ & (Hw & Hs & _) & _). apply search_lookup; trivial. Qed.

(** A successful [set] adds the entry to the contents. *)
Lemma set_inserts key value self :
  invariant self ->
  value <> PyNone -> isinstance key (type self) = true ->
  search (root self) key = PyNone ->
  let self' := mkKV (type self) (insert (super self) (mkNodeKey key value)) in
  set key value self =
    mkOutcome (Return tt) self' [CallSearch key; CallInsert (mkNodeKey key value)] /\
  invariant self' /\
  stored self' = insort (mkNodeKey key value) (stored self).
Proof.
  intros Hinv Hv Hk Hs self'. pose proof Hinv as (Ht & Hbt & Hall).
  pose proof Hbt as (_ & Hso & _).
  rewrite set_cases.
  apply is_None_false in Hv. rewrite Hv, Hk, Hs. simpl. split; [reflexivity|].
  assert (Hfresh : Forall (fun x => BTree.key x <> key) (stored self)).
  { apply List.Forall_forall. intros x Hx Hkx.
    rewrite (search_stored _ _ Hinv) in Hs. subst key.
    unfold stored in *.
    rewrite (lookup_key_sorted_In x _ Hso Hx) in Hs.
    rewrite List.Forall_forall in Hall. apply Hall in Hx. tauto. }
  unfold root in Hbt. rewrite <- Ht in Hbt.
  destruct (insert_btree (super self) (mkNodeKey key value)) as (Hbt' & Hc');
    trivial; [lia|].
  destruct (insert_spec (super self) (mkNodeKey key value)) as (Ht' & _ & _);
    [lia | apply Hbt | apply Hbt |].
  split; [|exact Hc'].
  unfold invariant, stored, root in *. subst self'. cbn [super type].
  rewrite Ht in Hbt'. rewrite Ht', Hc'. split; [exact Ht|]. split; [exact Hbt'|].
  apply List.Forall_forall. intros x Hx. apply insort_In in Hx as [->|Hx].
  - simpl. split; [apply is_None_false; exact Hv | exact Hk].
  - rewrite List.Forall_forall in Hall. auto.
Qed.

Lemma set_invariant key value self :
  invariant self -> invariant (self_of (set key value self)).
Proof.
  intros Hinv. rewrite set_cases.
  destruct (is_None value) eqn:Hv; [exact Hinv|].
  destruct (isinstance key (type self)) eqn:Hk; [|exact Hinv]. simpl.
  destruct (is_None (search (root self) key)) eqn:Hs; [|exact Hinv]. simpl.
  apply is_None_false in Hv. apply is_None_true in Hs.
  apply (set_inserts key value self Hinv Hv Hk Hs).
Qed.

Lemma set_type key value self : type (self_of (set key value self)) = type self.
Proof.
  rewrite set_cases.
  destruct (is_None value); trivial.
  destruct (negb (isinstance key (type self))); trivial.
  destruct (negb (is_None (search (root self) key))); trivial.
Qed.

Lemma load_from_dict_cons key value rest self :
  load_from_dict ((key, value) :: rest) self =
  match result_of (set key value self) with
  | Return _ =>
      let o := load_from_dict rest (self_of (set key value self)) in
      mkOutcome (result_of o) (self_of o)
                (calls_of (set key value self) ++ calls_of o)
  | Raise e =>
      mkOutcome (Raise e) (self_of (set key value self)) (calls_of (set key value self))
  end.
Proof. reflexivity. Qed.

Lemma load_from_dict_invariant d self :
  invariant self -> invariant (self_of (load_from_dict d self)).
Proof.
  revert self. induction d as [|[k v] d IH]; intros self Hinv; [exact Hinv|].
  rewrite load_from_dict_cons.
  pose proof (set_invariant k v self Hinv) as Hinv'.
  destruct (result_of (set k v self)); simpl; auto.
Qed.

Lemma get_self key self : self_of (get key self) = self.
Proof. rewrite get_cases. destruct (is_None _); reflexivity. Qed.

Lemma range_query_self interval inclusive self :
  self_of (range_query interval inclusive self) = self.
Proof.
  unfold range_query, bind, eval. simpl.
  destruct (interval_rejected interval) as [[|]|]; simpl; trivial.
  destruct (unpack2 interval) as [[lower upper]|]; simpl; trivial.
  destruct (is_None lower); reflexivity.
Qed.

Lemma step_invariant self self' : step self self' -> invariant self -> invariant self'.
Proof.
  intros [s k|s k v|s i inc|s d] Hinv.
  - rewrite get_self. exact Hinv.
  - apply set_invariant. exact Hinv.
  - rewrite range_query_self. exact Hinv.
  - apply load_from_dict_invariant. exact Hinv.
Qed.

(** Every store built with the interface satisfies the invariant. *)
Theorem reachable_invariant self : reachable self -> invariant self.
Proof.
  induction 1 as [ty values|s s' _ IH Hstep].
  - apply invariant_init.
  - eapply step_invariant; eassumption.
Qed.

Lemma get_stored key v self :
  invariant self -> lookup_key key (stored self) = v -> v <> PyNone ->
  get key self = mkOutcome (Return v) self [CallSearch key].
Proof.
  intros Hinv Hl Hv. rewrite get_cases, (search_stored _ _ Hinv), Hl.
  apply is_None_false in Hv. rewrite Hv. reflexivity.
Qed.

(** No value of the store is [None]: a lookup gives [None] exactly for
    the keys without entry. *)
Lemma lookup_stored_None key self :
  invariant self ->
  (lookup_key key (stored self) = PyNone <->
   forall e, In e (stored self) -> BTree.key e <> key).
Proof.
  intros (_ & (_ & Hs & _) & Hall). unfold stored in *. split.
  - intros Hl e He Hk. subst key.
    rewrite (lookup_key_sorted_In e _ Hs He) in Hl.
    rewrite List.Forall_forall in Hall. apply Hall in He. tauto.
  - intros H. apply lookup_key_absent. apply List.Forall_forall. exact H.
Qed.

Lemma dict_get_In k v d :
  NoDup (map fst d) -> In (k, v) d -> dict_get k d = Some v.
Proof.
  induction d as [|[k' v'] d IH]; simpl; [tauto|].
  intros Hnd [Heq|Hin].
  - injection Heq as -> ->. destruct (decide (k = k)); congruence.
  - apply NoDup_cons in Hnd as [Hk Hnd].
    destruct (decide (k' = k)) as [->|]; [|auto].
    exfalso. apply Hk. apply list_elem_of_In.
    change k with (fst (k, v)). apply in_map. exact Hin.
Qed.

Lemma dict_get_None k d : ~ In k (map fst d) -> dict_get k d = None.
Proof.
  induction d as [|[k' v'] d IH]; simpl; trivial.
  intros H. destruct (decide (k' = k)); [tauto | auto].
Qed.

Lemma set_Return key value self :
  result_of (set key value self) = Return tt -> accepted self (key, value).
Proof.
  rewrite set_cases. unfold accepted. simpl.
  destruct (is_None value) eqn:Hv; [discriminate|].
  destruct (isinstance key (type self)) eqn:Hk; [|discriminate]. simpl.
  destruct (is_None (search (root self) key)) eqn:Hs; [|discriminate].
  intros _. apply is_None_false in Hv. apply is_None_true in Hs. auto.
Qed.

Lemma lookup_after_set key value self k :
  invariant self -> accepted self (key, value) ->
  lookup_key k (stored (self_of (set key value self))) =
  if decide (key = k) then value else lookup_key k (stored self).
Proof.
  intros Hinv (Hk & Hv & Hs). simpl in *.
  destruct (set_inserts key value self Hinv Hv Hk Hs) as (Hout & _ & Hst).
  rewrite Hout. cbn [self_of]. rewrite Hst.
  apply lookup_key_insort.
Qed.

(** A [load_from_dict] that ends without exception has called [set]
    with success on every item. *)
Lemma load_from_dict_Return d self :
  invariant self ->
  result_of (load_from_dict d self) = Return tt ->
  NoDup (map fst d) /\
  Forall (accepted self) d /\
  (forall k, lookup_key k (stored (self_of (load_from_dict d self))) =
             default (lookup_key k (stored self)) (dict_get k d)) /\
  calls_of (load_from_dict d self) = flat_map set_calls d.
Proof.
  revert self. induction d as [|[key value] d IH]; intros self Hinv Hr.
  - simpl. repeat split; constructor.
  - rewrite load_from_dict_cons in *.
    destruct (result_of (set key value self)) as [[]|e] eqn:Hset; [|discriminate].
    pose proof (set_Return _ _ _ Hset) as Hacc.
    pose proof (set_invariant key value self Hinv) as Hinv1.
    pose proof (lookup_after_set key value self) as Hl1.
    pose proof Hacc as (Hk & Hv & Hs). simpl in Hk, Hv, Hs.
    destruct (set_inserts key value self Hinv Hv Hk Hs) as (Hout & _ & _).
    set (self1 := self_of (set key value self)) in *.
    simpl in Hr.
    destruct (IH self1 Hinv1 Hr) as (Hnd & Hall & Hl & Hc).
    assert (Hnotin : ~ In key (map fst d)).
    { intros Hin. apply in_map_iff in Hin as ([k' v'] & Hk' & Hin). simpl in Hk'. subst k'.
      rewrite List.Forall_forall in Hall. apply Hall in Hin as (_ & _ & Hfresh).
      simpl in Hfresh. rewrite (search_stored _ _ Hinv1) in Hfresh.
      subst self1. rewrite Hl1 in Hfresh by trivial.
      destruct (decide (key = key)); congruence. }
    simpl. repeat split.
    + apply NoDup_cons. split; [|exact Hnd].
      intros Hin. apply Hnotin. apply list_elem_of_In. exact Hin.
    + constructor; [exact Hacc|].
      eapply List.Forall_impl; [|exact Hall].
      intros [k' v'] (Hk' & Hv' & Hs'). simpl in *. repeat split; trivial.
      * subst self1. rewrite set_type in Hk'. exact Hk'.
      * rewrite (search_stored _ _ Hinv1) in Hs'.
        subst self1. rewrite Hl1 in Hs' by trivial.
        rewrite (search_stored _ _ Hinv).
        destruct (decide (key = k')); [congruence | exact Hs'].
    + intros k. rewrite Hl. subst self1. rewrite Hl1 by trivial.
      destruct (decide (key = k)) as [<-|Hne]; simpl; trivial.
      rewrite dict_get_None by trivial. reflexivity.
    + rewrite Hc, Hout. reflexivity.
Qed.

(** Conversely, items that [set] accepts, under distinct keys, are all
    inserted. *)
Lemma load_from_dict_accepts d self :
  invariant self ->
  NoDup (map fst d) -> Forall (accepted self) d ->
  result_of (load_from_dict d self) = Return tt.
Proof.
  revert self. induction d as [|[key value] d IH]; intros self Hinv Hnd Hall;
    [reflexivity|].
  apply Forall_cons in Hall as [(Hk & Hv & Hs) Hall]. simpl in Hk, Hv, Hs.
  simpl in Hnd. apply NoDup_cons in Hnd as [Hkd Hnd].
  rewrite load_from_dict_cons.
  assert (Hacc : accepted self (key, value)) by (repeat split; trivial).
  pose proof (fun k => lookup_after_set key value self k Hinv Hacc) as Hl1.
  pose proof (set_invariant key value self Hinv) as Hinv1.
  destruct (set_inserts key value self Hinv Hv Hk Hs) as (Hout & _ & _).
  assert (Hres : result_of (set key value self) = Return tt) by (rewrite Hout; reflexivity).
  rewrite Hres. cbn [result_of]. clear Hout.
  set (self1 := self_of (set key value self)) in *.
  apply IH; trivial.
  apply List.Forall_forall. intros [k' v'] Hin.
  rewrite List.Forall_forall in Hall. destruct (Hall _ Hin) as (Hk' & Hv' & Hs').
  simpl in Hk', Hv', Hs'. unfold accepted. simpl. repeat split; trivial.
  - subst self1. rewrite set_type. exact Hk'.
  - rewrite (search_stored _ _ Hinv1), Hl1.
    destruct (decide (key = k')) as [<-|].
    + exfalso. apply Hkd. apply list_elem_of_In.
      change key with (fst (key, v')). apply in_map. exact Hin.
    + rewrite <- (search_stored _ _ Hinv). exact Hs'.
Qed.

(** A failed [set] does not touch the store. *)
Lemma set_Raise key value self e :
  result_of (set key value self) = Raise e ->
  self_of (set key value self) = self /\
  (e = InvalidValue \/ e = KeyTypeMismatch (type self) \/ e = DuplicateKey) /\
  Forall (fun c => forall x, c <> CallInsert x) (calls_of (set key value self)).
Proof.
  rewrite set_cases.
  destruct (is_None value); simpl.
  { intros [= <-]. repeat split; auto. }
  destruct (isinstance key (type self)); simpl.
  2:{ intros [= <-]. repeat split; auto. }
  destruct (is_None (search (root self) key)); simpl; [discriminate|].
  intros [= <-]. repeat split; auto.
Qed.

(** A [load_from_dict] that ends with an exception stopped at the
    first item that [set] refused. *)
Lemma load_from_dict_Raise d self e :
  result_of (load_from_dict d self) = Raise e ->
  exists done key value rest,
    d = done ++ (key, value) :: rest /\
    result_of (load_from_dict done self) = Return tt /\
    let self1 := self_of (load_from_dict done self) in
    result_of (set key value self1) = Raise e /\
    self_of (load_from_dict d self) = self1 /\
    calls_of (load_from_dict d self) =
      calls_of (load_from_dict done self) ++ calls_of (set key value self1).
Proof.
  revert self. induction d as [|[key value] d IH]; intros self Hr; [discriminate|].
  rewrite load_from_dict_cons in *.
  destruct (result_of (set key value self)) as [[]|e'] eqn:Hset; simpl in Hr.
  - destruct (IH _ Hr) as (done & k & v & rest & -> & Hd & Hs & Hself & Hcalls).
    exists ((key, value) :: done), k, v, rest.
    rewrite load_from_dict_cons, Hset. simpl.
    repeat split; trivial.
    rewrite Hcalls, app_assoc. reflexivity.
  - injection Hr as ->. exists [], key, value, d. simpl.
    repeat split; trivial.
    apply (set_Raise _ _ _ _ Hset).
Qed.

(** ** The predicates of the engine and the comparisons of the
    specification *)

Lemma above_key_from lower inclusive e :
  above lower inclusive e = key_from lower inclusive e.
Proof.
  unfold above, key_from, key_le, Py.ltb. rewrite (compare_antisym (BTree.key e) lower).
  destruct (Py.compare (BTree.key e) lower), inclusive; reflexivity.
Qed.

Lemma below_key_up_to upper inclusive e :
  below upper inclusive e = key_up_to upper inclusive e.
Proof.
  unfold below, key_up_to, key_le, Py.ltb. rewrite (compare_antisym (BTree.key e) upper).
  destruct (Py.compare (BTree.key e) upper), inclusive; reflexivity.
Qed.

Lemma in_range_key_between lower upper inclusive e :
  upper <> PyNone ->
  in_range lower upper inclusive e = key_between lower upper inclusive e.
Proof.
  intros Hu. apply is_None_false in Hu.
  unfold in_range, within, key_between. rewrite Hu, above_key_from, below_key_up_to.
  unfold key_from, key_up_to. destruct inclusive; reflexivity.
Qed.

Lemma in_range_key_from lower inclusive e :
  in_range lower PyNone inclusive e = key_from lower inclusive e.
Proof. unfold in_range, within. simpl. rewrite andb_true_r. apply above_key_from. Qed.

(** [range_query] on a sequence of two items. *)
Lemma range_query_pair interval lower upper inclusive self :
  interval = PyList [lower; upper] \/ interval = PyTuple [lower; upper] ->
  range_query interval inclusive self =
  if is_None lower then self_less_than upper inclusive self
  else self_greater_than lower upper inclusive self.
Proof.
  intros [->| ->]; unfold range_query, bind, eval; simpl;
    destruct (is_None lower); reflexivity.
Qed.

(** ** Persistence *)

Section PersistenceFacts.

Variable blob : Type.
Variable pickle_dumps : KV -> blob.

(** The three ways out of [dump]. *)
Lemma dump_cases (self : KV) (filename : string) (w : World blob) :
  dump blob pickle_dumps self filename w =
  let path := (filename ++ ".db")%string in
  match open_fault blob w path with
  | Some e => (Raise e, w)
  | None =>
      let w1 := with_files blob w (<[path := []]> (files blob w)) in
      match write_fault blob w path with
      | Some e => (Raise e, w1)
      | None =>
          (Return true,
           with_files blob w1 (<[path := [pickle_dumps self]]> (files blob w1)))
      end
  end.
Proof.
  unfold dump, open_wb. cbv zeta.
  destruct (open_fault blob w (filename ++ ".db")%string); [reflexivity|].
  unfold pickle_dump. simpl.
  destruct (write_fault blob w (filename ++ ".db")%string); [reflexivity|].
  rewrite lookup_insert_eq. reflexivity.
Qed.

Variable pickle_loads : blob -> option KV.

(** The ways out of [load]. *)
Lemma load_cases (filename : string) (w : World blob) :
  load blob pickle_loads filename w =
  let path := (filename ++ ".db")%string in
  match read_fault blob w path with
  | Some e => (Raise e, w)
  | None =>
      match files blob w !! path with
      | None => (Raise (OSError ("No such file or directory: '" ++ path ++ "'")), w)
      | Some [] => (Raise (UnpicklingError "Ran out of input"), w)
      | Some (b :: _) =>
          match pickle_loads b with
          | Some obj => (Return obj, w)
          | None => (Raise (UnpicklingError "invalid load key"), w)
          end
      end
  end.
Proof.
  unfold load, open_rb, pickle_load. cbv zeta.
  destruct (read_fault blob w (filename ++ ".db")%string); [reflexivity|].
  destruct (files blob w !! (filename ++ ".db")%string) as [[|b bs]|] eqn:E;
    rewrite ?E; reflexivity.
Qed.

End PersistenceFacts.

End KVFacts.

(* ===================================================================== *)
(** * More facts on the store, for the further properties *)
(* ===================================================================== *)

Module KVMore.

Import BTree KV PyFacts BTreeFacts KVFacts.

Lemma load_from_dict_type d self :
  type (self_of (load_from_dict d self)) = type self.
Proof.
  revert self. induction d as [|[k v] d IH]; intros self; [reflexivity|].
  rewrite load_from_dict_cons.
  pose proof (set_type k v self) as Hty.
  destruct (result_of (set k v self)); simpl; [rewrite IH|]; trivial.
Qed.

(** A successful [set], seen from [get]. *)
Lemma get_Raise_iff key self :
  result_of (get key self) = Raise (KeyNotFound key) <->
  search (root self) key = PyNone.
Proof.
  rewrite get_cases. destruct (is_None (search (root self) key)) eqn:E; simpl.
  - split; trivial. intros _. apply is_None_true. exact E.
  - split; [discriminate|]. intros H. rewrite H in E. discriminate.
Qed.

Lemma get_result_search k self self' :
  search (root self') k = search (root self) k ->
  result_of (get k self') = result_of (get k self).
Proof. intros H. rewrite !get_cases, H. destruct (is_None _); reflexivity. Qed.

(** The answer of [search] after a successful [set]. *)
Lemma search_after_set key value self k :
  invariant self -> result_of (set key value self) = Return tt ->
  search (root (self_of (set key value self))) k =
  if decide (key = k) then value else search (root self) k.
Proof.
  intros Hinv Hr. pose proof (set_Return _ _ _ Hr) as Hacc.
  rewrite (search_stored _ _ (set_invariant key value self Hinv)).
  rewrite (lookup_after_set key value self k Hinv Hacc).
  rewrite (search_stored _ _ Hinv). reflexivity.
Qed.

Lemma stored_after_set key value self :
  invariant self -> result_of (set key value self) = Return tt ->
  stored (self_of (set key value self)) = insort (mkNodeKey key value) (stored self).
Proof.
  intros Hinv Hr. destruct (set_Return _ _ _ Hr) as (Hk & Hv & Hs). simpl in *.
  destruct (set_inserts key value self Hinv Hv Hk Hs) as (Hout & _ & Hst).
  rewrite Hout. exact Hst.
Qed.

Lemma load_from_dict_length d self :
  invariant self -> result_of (load_from_dict d self) = Return tt ->
  length (stored (self_of (load_from_dict d self))) = length (stored self) + length d.
Proof.
  revert self. induction d as [|[key value] d IH]; intros self Hinv Hr.
  - simpl. lia.
  - rewrite load_from_dict_cons in *.
    destruct (result_of (set key value self)) as [[]|e] eqn:Hset; [|discriminate].
    cbn [self_of result_of] in *.
    rewrite IH; trivial; [|apply set_invariant; exact Hinv].
    rewrite (stored_after_set key value self Hinv Hset), length_insort. simpl. lia.
Qed.

(** What a [range_query] that returns has asked the engine. *)
Lemma range_query_Return interval inclusive self found :
  result_of (range_query interval inclusive self) = Return found ->
  exists lower upper,
    unpack2 interval = Return (lower, upper) /\
    found = if is_None lower then less_than (root self) upper inclusive
            else greater_than (root self) lower upper inclusive.
Proof.
  unfold range_query, bind, eval. cbn [result_of self_of calls_of].
  destruct (interval_rejected interval) as [[|]|]; cbn [result_of self_of calls_of];
    try discriminate.
  destruct (unpack2 interval) as [[lower upper]|]; cbn [result_of self_of calls_of];
    try discriminate.
  intros H. exists lower, upper. split; trivial.
  destruct (is_None lower); simpl in H; congruence.
Qed.

(** On a sorted sequence a predicate that holds under an entry where it
    holds cuts the sequence in two. *)
Lemma filter_cut p l :
  down_closed p -> sorted l ->
  List.filter p l ++ List.filter (fun e => negb (p e)) l = l.
Proof.
  intros Hp. induction l as [|e l IH]; simpl; trivial.
  intros [He Hs]. destruct (p e) eqn:E; simpl.
  - rewrite IH; trivial.
  - rewrite (filter_none_over p e l Hp E He). simpl. f_equal.
    clear IH. induction l as [|x l IHl]; simpl; trivial.
    apply Forall_cons in He as [Hx He]. destruct Hs as [Hxl Hs].
    destruct (p x) eqn:Ex.
    + rewrite (Hp _ _ Hx Ex) in E. discriminate.
    + simpl. f_equal. auto.
Qed.

Lemma above_inclusive_negb_below b e : above b true e = negb (below b false e).
Proof. unfold above, below. destruct (Py.compare (key e) b); reflexivity. Qed.

(** No key is between [a] and [b] when [b < a], or when [a = b] and the
    bounds are excluded. *)
Lemma in_range_empty a b inclusive e :
  b <> PyNone ->
  Py.ltb b a = true \/ (a = b /\ inclusive = false) ->
  in_range a b inclusive e = false.
Proof.
  intros Hb H. apply is_None_false in Hb.
  unfold in_range, within, above, below. rewrite Hb.
  destruct H as [Hlt | [-> ->]].
  - apply ltb_lt in Hlt.
    destruct (Py.compare (key e) a) eqn:Ea; simpl; trivial.
    + apply compare_eq in Ea. subst a.
      apply lt_gt in Hlt. rewrite Hlt. apply andb_false_r.
    + apply lt_gt in Ea. pose proof (lt_trans _ _ _ Hlt Ea) as Hbe.
      apply lt_gt in Hbe. rewrite Hbe. reflexivity.
  - destruct (Py.compare (key e) b); reflexivity.
Qed.



(** ** Persistence *)

Section PersistenceMoreFacts.

Variable blob : Type.
Variable pickle_dumps : KV -> blob.

Lemma dump_files_ne (self : KV) (filename : string) (w : World blob) (path : string) :
  path <> (filename ++ ".db")%string ->
  files blob (snd (dump blob pickle_dumps self filename w)) !! path =
  files blob w !! path.
Proof.
  intros Hp. rewrite dump_cases. cbv zeta.
  destruct (open_fault blob w (filename ++ ".db")%string); [reflexivity|].
  destruct (write_fault blob w (filename ++ ".db")%string); simpl.
  - apply lookup_insert_ne. congruence.
  - rewrite !lookup_insert_ne by congruence. reflexivity.
Qed.


End PersistenceMoreFacts.

End KVMore.

(* ===================================================================== *)
(** * The session of the notebook, replayed *)
(* ===================================================================== *)

Module SessionFacts.

Import BTree KV Session.

(** [print(db.range_query([1,3]))] shows [[<NodeKey: (2, world)>]]. *)
Example range_1_3 :
  result_of (range_query (PyList [PyInt 1; PyInt 3]) false db) =
  Return [mkNodeKey (PyInt 2) (PyStr "world")].
Proof. reflexivity. Qed.

Example dump_sample_store : fst dumped = Return true.
Proof. reflexivity. Qed.

Example load_sample_store : fst loaded = Return db.
Proof. reflexivity. Qed.

(** [print(kv.range_query([1,3]))] shows the same. *)
Example range_1_3_loaded :
  result_of (range_query (PyList [PyInt 1; PyInt 3]) false kv) =
  Return [mkNodeKey (PyInt 2) (PyStr "world")].
Proof. reflexivity. Qed.

(** [print(kv.range_query([4,8]))] shows the three new entries. *)
Example range_4_8 :
  result_of (range_query (PyList [PyInt 4; PyInt 8]) false kv') =
  Return [mkNodeKey (PyInt 5) (PyStr "a");
          mkNodeKey (PyInt 6) (PyStr "simple");
          mkNodeKey (PyInt 7) (PyStr "kv store")].
Proof. reflexivity. Qed.

(** [print(kv.get(5))] shows [a]. *)
Example get_5 : result_of (get (PyInt 5) kv') = Return (PyStr "a").
Proof. reflexivity. Qed.

(** With fifty entries the root has been split: the tree has two
    levels, and the entries are met in key order. *)
Example big_height : height (root big) = 2.
Proof. vm_compute. reflexivity. Qed.

Example big_keys :
  map BTree.key (stored big) = map (fun i => PyInt (Z.of_nat i)) (seq 0 50).
Proof. vm_compute. reflexivity. Qed.

Example big_get_33 : result_of (get (PyInt 33) big) = Return (PyStr "33").
Proof. vm_compute. reflexivity. Qed.

Example big_range :
  map BTree.key
      (match result_of (range_query (PyTuple [PyInt 17; PyInt 21]) true big) with
       | Return found => found
       | Raise _ => []
       end) =
  [PyInt 17; PyInt 18; PyInt 19; PyInt 20; PyInt 21].
Proof. vm_compute. reflexivity. Qed.

End SessionFacts.

(* ===================================================================== *)
(** * The claims of the specification *)
(* ===================================================================== *)

Import BTree KV PyFacts BTreeFacts KVFacts.

(** ** C1

    C1: take a store built with the public interface and a sequence of
    items, and call [set] on each item in turn.  When the keys are
    distinct, of the declared key type and not yet in the store, and the
    values are not [None], every call succeeds.  And when every call has
    succeeded, [get] on each of the keys returns the value that was
    given with it.  The tree engine is the one modelled from the
    specification. *)
Theorem get_after_set (self : KV) (items : dict) :
  reachable self ->
  (NoDup (map fst items) ->
   Forall (fun kv => isinstance (fst kv) (type self) = true /\
                     snd kv <> PyNone /\
                     result_of (get (fst kv) self) = Raise (KeyNotFound (fst kv)))
          items ->
   result_of (load_from_dict items self) = Return tt) /\
  (result_of (load_from_dict items self) = Return tt ->
   forall key value, In (key, value) items ->
     result_of (get key (self_of (load_from_dict items self))) = Return value).
Proof.
  intros Hreach.
  pose proof (reachable_invariant _ Hreach) as Hinv. split.
  - intros Hnd Hall. apply load_from_dict_accepts; trivial.
    eapply List.Forall_impl; [|exact Hall].
    intros [k v] (Hk & Hv & Hg). cbn [fst snd] in *. repeat split; trivial.
    cbn [fst]. rewrite get_cases in Hg.
    destruct (is_None (search (root self) k)) eqn:E; [|discriminate].
    apply is_None_true. exact E.
  - intros Hr key value Hin.
    destruct (load_from_dict_Return items self Hinv Hr) as (Hnd & Hall & Hl & _).
    pose proof (load_from_dict_invariant items self Hinv) as Hinv'.
    rewrite (get_stored key value); trivial.
    + rewrite Hl, (dict_get_In key value items Hnd Hin). reflexivity.
    + rewrite List.Forall_forall in Hall. apply Hall in Hin as (_ & Hv & _). exact Hv.
Qed.

Lemma get_after_set_witness :
  result_of (load_from_dict [(PyInt 3, PyStr "this"); (PyInt 1, PyStr "hello")]
                            (init int None)) = Return tt /\
  forall key value,
    In (key, value) [(PyInt 3, PyStr "this"); (PyInt 1, PyStr "hello")] ->
    result_of (get key (self_of (load_from_dict
                 [(PyInt 3, PyStr "this"); (PyInt 1, PyStr "hello")]
                 (init int None)))) = Return value.
Proof.
  pose proof (get_after_set (init int None)
                [(PyInt 3, PyStr "this"); (PyInt 1, PyStr "hello")]
                (reachable_init int None)) as [Hsets Hgets].
  assert (Hr : result_of (load_from_dict
                 [(PyInt 3, PyStr "this"); (PyInt 1, PyStr "hello")]
                 (init int None)) = Return tt).
  { apply Hsets.
    - simpl. apply NoDup_cons. split; [|apply NoDup_singleton].
      apply not_elem_of_cons. split; [discriminate | apply not_elem_of_nil].
    - repeat constructor; discriminate. }
  split; [exact Hr | exact (Hgets Hr)].
Defined.

(** ** C2

    C2: on a store built with the public interface and a list or tuple
    [[a, b]], [range_query] returns a sequence of entries in ascending
    key order, which is the sequence of the stored entries filtered by
    the interval: [a <= key <= b] ([a < key < b] when not inclusive)
    when neither bound is [None], [key <= b] ([key < b]) when [a] is
    [None], and [a <= key] ([a < key]) when [b] is [None].  The tree
    engine is the one modelled from the specification. *)
Theorem range_query_interval (self : KV) (interval : pyobj) (a b : pyval)
    (inclusive : bool) :
  reachable self ->
  interval = PyList [a; b] \/ interval = PyTuple [a; b] ->
  exists found,
    result_of (range_query interval inclusive self) = Return found /\
    sorted found /\
    (a <> PyNone -> b <> PyNone ->
     found = List.filter (key_between a b inclusive) (stored self)) /\
    (a = PyNone -> b <> PyNone ->
     found = List.filter (key_up_to b inclusive) (stored self)) /\
    (a <> PyNone -> b = PyNone ->
     found = List.filter (key_from a inclusive) (stored self)).
Proof.
  intros Hreach Hint.
  pose proof (reachable_invariant _ Hreach) as (_ & (_ & Hs & _) & _).
  rewrite (range_query_pair interval a b inclusive self Hint).
  destruct (is_None a) eqn:Ha.
  - apply is_None_true in Ha. subst a.
    exists (List.filter (below b inclusive) (stored self)).
    split.
    { unfold self_less_than. cbn [result_of].
      rewrite less_than_filter by exact Hs. reflexivity. }
    split; [apply filter_sorted; exact Hs|].
    repeat split; try congruence.
    intros _ _. apply List.filter_ext. intros e. apply below_key_up_to.
  - apply is_None_false in Ha.
    exists (List.filter (in_range a b inclusive) (stored self)).
    split.
    { unfold self_greater_than. cbn [result_of].
      rewrite greater_than_filter by exact Hs. reflexivity. }
    split; [apply filter_sorted; exact Hs|].
    repeat split; try congruence.
    + intros _ Hb. apply List.filter_ext. intros e. apply in_range_key_between. exact Hb.
    + intros _ ->. apply List.filter_ext. intros e. apply in_range_key_from.
Qed.

Lemma range_query_interval_witness :
  let self := self_of (load_from_dict
                [(PyInt 1, PyStr "hello"); (PyInt 2, PyStr "world");
                 (PyInt 3, PyStr "this"); (PyInt 4, PyStr "is")]
                (init int None)) in
  exists found,
    result_of (range_query (PyList [PyInt 1; PyInt 3]) false self) = Return found /\
    sorted found /\
    (PyInt 1 <> PyNone -> PyInt 3 <> PyNone ->
     found = List.filter (key_between (PyInt 1) (PyInt 3) false) (stored self)) /\
    (PyInt 1 = PyNone -> PyInt 3 <> PyNone ->
     found = List.filter (key_up_to (PyInt 3) false) (stored self)) /\
    (PyInt 1 <> PyNone -> PyInt 3 = PyNone ->
     found = List.filter (key_from (PyInt 1) false) (stored self)).
Proof.
  intros self.
  apply (range_query_interval self (PyList [PyInt 1; PyInt 3])
           (PyInt 1) (PyInt 3) false).
  - eapply reachable_step; [apply reachable_init | apply step_load_from_dict].
  - left. reflexivity.
Defined.

(** ** C3

    C3: [set] checks in a fixed order.  A [None] value gives
    [InvalidValue] whatever the key is, and no call to the engine is
    made; otherwise a key that is not an instance of the declared type
    gives [KeyTypeMismatch], again before any call to the engine;
    otherwise the key is searched, once, and a key that is found gives
    [DuplicateKey].  The three exceptions differ, and the store is the
    same after each of them. *)
Theorem set_check_order (self : KV) (key value : pyval) :
  (value = PyNone ->
   set key value self = mkOutcome (Raise InvalidValue) self []) /\
  (value <> PyNone -> isinstance key (type self) = false ->
   set key value self = mkOutcome (Raise (KeyTypeMismatch (type self))) self []) /\
  (value <> PyNone -> isinstance key (type self) = true ->
   search (root self) key <> PyNone ->
   set key value self = mkOutcome (Raise DuplicateKey) self [CallSearch key]) /\
  InvalidValue <> KeyTypeMismatch (type self) /\
  KeyTypeMismatch (type self) <> DuplicateKey /\
  InvalidValue <> DuplicateKey.
Proof.
  rewrite set_cases. repeat split; try discriminate.
  - intros ->. reflexivity.
  - intros Hv Hk. apply is_None_false in Hv. rewrite Hv, Hk. reflexivity.
  - intros Hv Hk Hs. apply is_None_false in Hv, Hs. rewrite Hv, Hk, Hs. reflexivity.
Qed.

Lemma set_check_order_witness :
  set (PyStr "a") PyNone (init int None) =
  mkOutcome (Raise InvalidValue) (init int None) []
  /\ set (PyStr "a") (PyInt 1) (init int None) =
     mkOutcome (Raise (KeyTypeMismatch int)) (init int None) [].
Proof.
  split.
  - apply (proj1 (set_check_order (init int None) (PyStr "a") PyNone)).
    reflexivity.
  - apply (proj1 (proj2 (set_check_order (init int None) (PyStr "a") (PyInt 1)))).
    + discriminate.
    + reflexivity.
Defined.

(** ** C4

    C4: the first statement of [range_query] rejects an argument only
    when it is neither a list nor a tuple and has a length other than
    two.  It never rejects a list or a tuple, of any length, and on an
    object without length its test raises [TypeError]: a list of three
    items reaches the unpacking, which raises its own [ValueError], and
    an integer makes [len] raise [TypeError]. *)
Theorem range_query_guard_misses (self : KV) (inclusive : bool) :
  result_of (range_query (PyScalar (PyInt 5)) inclusive self) =
    Raise (TypeError "object of type 'int' has no len()") /\
  result_of (range_query (PyList [PyInt 1; PyInt 2; PyInt 3]) inclusive self) =
    Raise (ValueError "too many values to unpack (expected 2)") /\
  result_of (range_query (PyList [PyInt 1]) inclusive self) =
    Raise (ValueError "not enough values to unpack (expected 2, got 1)") /\
  (forall items, interval_rejected (PyList items) = Return false) /\
  (forall items, interval_rejected (PyTuple items) = Return false) /\
  (forall items : list pyval,
     result_of (range_query (PyList items) inclusive self) <> Raise InvalidInterval /\
     result_of (range_query (PyTuple items) inclusive self) <> Raise InvalidInterval).
Proof.
  repeat split; try reflexivity.
  - unfold range_query, bind, eval. simpl.
    destruct items as [|a [|b [|c items]]]; simpl; try discriminate.
    destruct (is_None a); discriminate.
  - unfold range_query, bind, eval. simpl.
    destruct items as [|a [|b [|c items]]]; simpl; try discriminate.
    destruct (is_None a); discriminate.
Qed.

(** ** C5

    C5: the initializer does not look at [values]: the store
    constructed with a mapping is the empty store, and [get] raises
    [KeyNotFound] for every key, those of the mapping included. *)
Theorem init_ignores_values (type_ : pytype) (values : option dict) :
  init type_ values = init type_ None /\
  stored (init type_ values) = [] /\
  forall key, result_of (get key (init type_ values)) = Raise (KeyNotFound key).
Proof. repeat split. Qed.

(** ** C6 and C7

    Persistence, for any pickled form of the stores that [pickle] can
    read back. *)

Section PersistenceClaims.

Variable blob : Type.
Variable pickle_dumps : KV -> blob.
Variable pickle_loads : blob -> option KV.

(** What [pickle] promises: unpickling a pickled object gives the
    object back. *)
Hypothesis pickle_roundtrip : forall obj, pickle_loads (pickle_dumps obj) = Some obj.

(** C7: [dump] writes the pickled store, alone, to the file named by
    the argument followed by [.db] and returns [True] when opening and
    writing succeed; an exception raised by opening or by writing is
    the outcome of [dump]; [dump] never returns [False]. *)
Theorem dump_True_or_raises (self : KV) (filename : string) (w : World blob) :
  let path := (filename ++ ".db")%string in
  match dump blob pickle_dumps self filename w with
  | (Return flag, w') =>
      flag = true /\
      open_fault blob w path = None /\ write_fault blob w path = None /\
      files blob w' !! path = Some [pickle_dumps self]
  | (Raise e, w') =>
      (open_fault blob w path = Some e /\ w' = w) \/
      (open_fault blob w path = None /\ write_fault blob w path = Some e /\
       files blob w' !! path = Some [])
  end.
Proof.
  rewrite dump_cases. cbv zeta.
  destruct (open_fault blob w (filename ++ ".db")%string) as [e|] eqn:Ho;
    [left; auto|].
  destruct (write_fault blob w (filename ++ ".db")%string) as [e|] eqn:Hw; simpl.
  - right. repeat split; trivial. apply lookup_insert_eq.
  - repeat split; trivial. apply lookup_insert_eq.
Qed.

(** C6: when [dump] of a store under a name has returned, [load] of
    that name (if the file can be opened for reading) returns a store,
    and this store answers [get], for every key, and [range_query], for
    every interval, as the store that was dumped does. *)
Theorem load_dump_roundtrip (self : KV) (filename : string) (w w' : World blob)
    (flag : bool) :
  dump blob pickle_dumps self filename w = (Return flag, w') ->
  read_fault blob w' (filename ++ ".db")%string = None ->
  exists self',
    load blob pickle_loads filename w' = (Return self', w') /\
    (forall key, result_of (get key self') = result_of (get key self)) /\
    (forall interval inclusive,
       result_of (range_query interval inclusive self') =
       result_of (range_query interval inclusive self)).
Proof.
  intros Hd Hr. rewrite dump_cases in Hd. cbv zeta in Hd.
  destruct (open_fault blob w (filename ++ ".db")%string); [discriminate|].
  destruct (write_fault blob w (filename ++ ".db")%string); [discriminate|].
  injection Hd as _ <-.
  exists self. split; [|split; reflexivity].
  rewrite load_cases. cbv zeta.
  rewrite Hr. cbn [files with_files].
  rewrite lookup_insert_eq, pickle_roundtrip. reflexivity.
Qed.

End PersistenceClaims.

Lemma load_dump_roundtrip_witness :
  let self := self_of (set (PyInt 1) (PyStr "hello") (init int None)) in
  let w' := snd (dump KV id self "sample_store" (quiet_world KV)) in
  exists self',
    load KV Some "sample_store" w' = (Return self', w') /\
    (forall key, result_of (get key self') = result_of (get key self)) /\
    (forall interval inclusive,
       result_of (range_query interval inclusive self') =
       result_of (range_query interval inclusive self)).
Proof.
  intros self w'.
  apply (load_dump_roundtrip KV id Some (fun obj => eq_refl) self "sample_store"
           (quiet_world KV) w' true).
  - reflexivity.
  - reflexivity.
Defined.

(** ** C8

    C8: a call of [set] that ends with an exception leaves the store
    as it was (the same object state: type, degree and tree), and the
    exception is [InvalidValue], [KeyTypeMismatch] or [DuplicateKey]. *)
Theorem failed_set_unchanged (self : KV) (key value : pyval) (e : exn) :
  result_of (set key value self) = Raise e ->
  self_of (set key value self) = self /\
  (e = InvalidValue \/ e = KeyTypeMismatch (type self) \/ e = DuplicateKey).
Proof.
  intros H. destruct (set_Raise key value self e H) as (Hs & He & _). auto.
Qed.

Lemma failed_set_unchanged_witness :
  let self := self_of (set (PyInt 1) (PyStr "hello") (init int None)) in
  self_of (set (PyInt 1) (PyStr "again") self) = self /\
  (DuplicateKey = InvalidValue \/ DuplicateKey = KeyTypeMismatch (type self) \/
   DuplicateKey = DuplicateKey).
Proof.
  intros self. apply (failed_set_unchanged self (PyInt 1) (PyStr "again") DuplicateKey).
  reflexivity.
Defined.

(** ** C9

    C9: [load_from_dict] calls [set] on the items in their order.  When
    it ends without exception every item was inserted by one search and
    one insertion, in order.  When it ends with an exception, that
    exception is the one of the first call of [set] that failed; the
    items before it were inserted and can be read back, the store is
    the one these insertions produced, and no insertion is made for the
    failing item or after it. *)
Theorem load_from_dict_no_rollback (self : KV) (dictionary : dict) :
  reachable self ->
  (result_of (load_from_dict dictionary self) = Return tt ->
   calls_of (load_from_dict dictionary self) = flat_map set_calls dictionary) /\
  (forall e, result_of (load_from_dict dictionary self) = Raise e ->
   exists done key value rest,
     dictionary = done ++ (key, value) :: rest /\
     let self1 := self_of (load_from_dict done self) in
     result_of (load_from_dict done self) = Return tt /\
     result_of (set key value self1) = Raise e /\
     self_of (load_from_dict dictionary self) = self1 /\
     calls_of (load_from_dict dictionary self) =
       flat_map set_calls done ++ calls_of (set key value self1) /\
     Forall (fun c => forall x, c <> CallInsert x) (calls_of (set key value self1)) /\
     forall k v, In (k, v) done -> result_of (get k self1) = Return v).
Proof.
  intros Hreach. pose proof (reachable_invariant _ Hreach) as Hinv. split.
  - intros Hr. apply (load_from_dict_Return dictionary self Hinv Hr).
  - intros e Hr.
    destruct (load_from_dict_Raise dictionary self e Hr)
      as (done & key & value & rest & Hd & Hdone & Hset & Hself & Hcalls).
    exists done, key, value, rest.
    destruct (load_from_dict_Return done self Hinv Hdone) as (Hnd & Hall & Hl & Hc).
    pose proof (load_from_dict_invariant done self Hinv) as Hinv1.
    cbv zeta in *. rewrite <- Hc. repeat split; trivial.
    + apply (set_Raise _ _ _ _ Hset).
    + intros k v Hin. rewrite (get_stored k v); trivial.
      * rewrite Hl, (dict_get_In k v done Hnd Hin). reflexivity.
      * rewrite List.Forall_forall in Hall. apply Hall in Hin as (_ & Hv & _). exact Hv.
Qed.

Lemma load_from_dict_no_rollback_witness :
  exists done key value rest,
    [(PyInt 5, PyStr "a"); (PyStr "six", PyStr "b"); (PyInt 7, PyStr "c")] =
      done ++ (key, value) :: rest /\
    let self1 := self_of (load_from_dict done (init int None)) in
    result_of (load_from_dict done (init int None)) = Return tt /\
    result_of (set key value self1) = Raise (KeyTypeMismatch int) /\
    self_of (load_from_dict
               [(PyInt 5, PyStr "a"); (PyStr "six", PyStr "b"); (PyInt 7, PyStr "c")]
               (init int None)) = self1 /\
    calls_of (load_from_dict
                [(PyInt 5, PyStr "a"); (PyStr "six", PyStr "b"); (PyInt 7, PyStr "c")]
                (init int None)) =
      flat_map set_calls done ++ calls_of (set key value self1) /\
    Forall (fun c => forall x, c <> CallInsert x) (calls_of (set key value self1)) /\
    forall k v, In (k, v) done -> result_of (get k self1) = Return v.
Proof.
  apply (proj2 (load_from_dict_no_rollback (init int None)
                  [(PyInt 5, PyStr "a"); (PyStr "six", PyStr "b"); (PyInt 7, PyStr "c")]
                  (reachable_init int None))).
  reflexivity.
Defined.

(** ** C10

    C10: in a store built with the public interface no stored value is
    [None]; so the search of the engine returns [None] exactly for the
    keys that have no entry, and that is exactly when [get] raises
    [KeyNotFound]. *)
Theorem no_None_stored (self : KV) :
  reachable self ->
  Forall (fun e => BTree.value e <> PyNone) (stored self) /\
  forall key,
    (search (root self) key = PyNone <->
     forall e, In e (stored self) -> BTree.key e <> key) /\
    (result_of (get key self) = Raise (KeyNotFound key) <->
     search (root self) key = PyNone) /\
    (forall e, In e (stored self) ->
     result_of (get (BTree.key e) self) = Return (BTree.value e)).
Proof.
  intros Hreach. pose proof (reachable_invariant _ Hreach) as Hinv.
  pose proof Hinv as (_ & (_ & Hs & _) & Hall). split.
  - eapply List.Forall_impl; [|exact Hall]. intros e He. cbv beta in He. tauto.
  - intros key. repeat split.
    + rewrite (search_stored _ _ Hinv). apply lookup_stored_None. exact Hinv.
    + rewrite (search_stored _ _ Hinv). apply lookup_stored_None. exact Hinv.
    + rewrite get_cases. destruct (is_None (search (root self) key)) eqn:E.
      * intros _. apply is_None_true. exact E.
      * discriminate.
    + intros H. rewrite get_cases, H. reflexivity.
    + intros e He. rewrite (get_stored (BTree.key e) (BTree.value e)); trivial.
      * apply lookup_key_sorted_In; trivial.
      * rewrite List.Forall_forall in Hall. apply Hall in He. tauto.
Qed.

Lemma no_None_stored_witness :
  let self := self_of (set (PyInt 1) (PyStr "hello") (init int None)) in
  Forall (fun e => BTree.value e <> PyNone) (stored self) /\
  forall key,
    (search (root self) key = PyNone <->
     forall e, In e (stored self) -> BTree.key e <> key) /\
    (result_of (get key self) = Raise (KeyNotFound key) <->
     search (root self) key = PyNone) /\
    (forall e, In e (stored self) ->
     result_of (get (BTree.key e) self) = Return (BTree.value e)).
Proof.
  intros self. apply (no_None_stored self).
  subst self. eapply reachable_step; [apply reachable_init | apply step_set].
Defined.

(* ===================================================================== *)
(** * Further properties of the store *)
(* ===================================================================== *)

Import KVMore.

(** ** [set] and [get] *)

(** X1: [set] returns exactly when the value is not [None], the key is
    an instance of the declared type and [get] finds no value for the
    key; it has then asked the engine one search and one insertion of
    [NodeKey(key, value)], in that order. *)
Theorem set_succeeds_iff (self : KV) (key value : pyval) :
  (result_of (set key value self) = Return tt <->
   value <> PyNone /\ isinstance key (type self) = true /\
   result_of (get key self) = Raise (KeyNotFound key)) /\
  (result_of (set key value self) = Return tt ->
   calls_of (set key value self) =
   [CallSearch key; CallInsert (mkNodeKey key value)]).
Proof.
  rewrite get_Raise_iff, set_cases.
  destruct (is_None value) eqn:Hv; simpl.
  { apply is_None_true in Hv. split; [|discriminate].
    split; [discriminate | tauto]. }
  apply is_None_false in Hv.
  destruct (isinstance key (type self)); simpl.
  2:{ split; [|discriminate]. split; [discriminate | intros (_ & ? & _); discriminate]. }
  destruct (is_None (search (root self) key)) eqn:Hs; simpl.
  - apply is_None_true in Hs. split; [|trivial]. split; auto.
  - apply is_None_false in Hs. split; [|discriminate].
    split; [discriminate | tauto].
Qed.

(** X2: after a call of [set] that returned, on a store built with the
    public interface, [get] returns the value for the key that was set
    and answers as before for every other key. *)
Theorem get_after_one_set (self : KV) (key value : pyval) :
  reachable self ->
  result_of (set key value self) = Return tt ->
  result_of (get key (self_of (set key value self))) = Return value /\
  forall k, k <> key ->
    result_of (get k (self_of (set key value self))) = result_of (get k self).
Proof.
  intros Hreach Hr. pose proof (reachable_invariant _ Hreach) as Hinv.
  pose proof (search_after_set key value self) as Hs. split.
  - destruct (set_Return _ _ _ Hr) as (_ & Hv & _). simpl in Hv.
    rewrite get_cases, (Hs key Hinv Hr).
    destruct (decide (key = key)); [|congruence].
    apply is_None_false in Hv. rewrite Hv. reflexivity.
  - intros k Hk. apply get_result_search. rewrite (Hs k Hinv Hr).
    destruct (decide (key = k)); congruence.
Qed.

Lemma get_after_one_set_witness :
  result_of (get (PyInt 2)
               (self_of (set (PyInt 2) (PyStr "world")
                             (self_of (set (PyInt 1) (PyStr "hello") (init int None))))))
  = Return (PyStr "world") /\
  forall k, k <> PyInt 2 ->
    result_of (get k
                 (self_of (set (PyInt 2) (PyStr "world")
                               (self_of (set (PyInt 1) (PyStr "hello") (init int None))))))
    = result_of (get k (self_of (set (PyInt 1) (PyStr "hello") (init int None)))).
Proof.
  apply (get_after_one_set
           (self_of (set (PyInt 1) (PyStr "hello") (init int None)))
           (PyInt 2) (PyStr "world")).
  - eapply reachable_step; [apply reachable_init | apply step_set].
  - reflexivity.
Defined.

(** X3: a key can be set once.  After a call of [set] that returned, on
    a store built with the public interface, every further [set] on the
    same key with a value other than [None] raises [DuplicateKey] after
    one search, and leaves the store as it is. *)
Theorem second_set_rejected (self : KV) (key value value' : pyval) :
  reachable self ->
  result_of (set key value self) = Return tt ->
  value' <> PyNone ->
  set key value' (self_of (set key value self)) =
  mkOutcome (Raise DuplicateKey) (self_of (set key value self)) [CallSearch key].
Proof.
  intros Hreach Hr Hv'. pose proof (reachable_invariant _ Hreach) as Hinv.
  destruct (set_Return _ _ _ Hr) as (Hk & Hv & _). simpl in Hk, Hv.
  rewrite (set_cases key value'). rewrite set_type, Hk.
  rewrite (search_after_set key value self key Hinv Hr).
  destruct (decide (key = key)); [|congruence].
  apply is_None_false in Hv, Hv'. rewrite Hv, Hv'. reflexivity.
Qed.

Lemma second_set_rejected_witness :
  set (PyInt 1) (PyStr "again")
      (self_of (set (PyInt 1) (PyStr "hello") (init int None))) =
  mkOutcome (Raise DuplicateKey)
            (self_of (set (PyInt 1) (PyStr "hello") (init int None)))
            [CallSearch (PyInt 1)].
Proof.
  apply (second_set_rejected (init int None) (PyInt 1) (PyStr "hello") (PyStr "again")).
  - apply reachable_init.
  - reflexivity.
  - discriminate.
Defined.

(** X4: a call of [set] that returned, on a store built with the public
    interface, has added one entry, [NodeKey(key, value)], to the
    entries of the store; the entries that were there are all kept, and
    the entries are still in ascending key order. *)
Theorem set_adds_entry (self : KV) (key value : pyval) :
  reachable self ->
  result_of (set key value self) = Return tt ->
  length (stored (self_of (set key value self))) = S (length (stored self)) /\
  (forall e, In e (stored (self_of (set key value self))) <->
             e = mkNodeKey key value \/ In e (stored self)) /\
  sorted (stored (self_of (set key value self))).
Proof.
  intros Hreach Hr. pose proof (reachable_invariant _ Hreach) as Hinv.
  pose proof (set_invariant key value self Hinv) as (_ & (_ & Hs' & _) & _).
  change (sorted (stored (self_of (set key value self)))) in Hs'.
  rewrite (stored_after_set key value self Hinv Hr) in *.
  split; [apply length_insort|]. split; [|exact Hs'].
  intros e. apply insort_In.
Qed.

Lemma set_adds_entry_witness :
  length (stored (self_of (set (PyInt 1) (PyStr "hello") (init int None)))) =
    S (length (stored (init int None))) /\
  (forall e, In e (stored (self_of (set (PyInt 1) (PyStr "hello") (init int None)))) <->
             e = mkNodeKey (PyInt 1) (PyStr "hello") \/ In e (stored (init int None))) /\
  sorted (stored (self_of (set (PyInt 1) (PyStr "hello") (init int None)))).
Proof.
  apply (set_adds_entry (init int None) (PyInt 1) (PyStr "hello")).
  - apply reachable_init.
  - reflexivity.
Defined.



(** X6: no method changes the declared key type of the store: after
    any call of [get], [set], [range_query] or [load_from_dict], failed
    or not, the type is the one given to the initializer. *)
Theorem type_is_fixed (self self' : KV) :
  step self self' -> type self' = type self.
Proof.
  intros [s k|s k v|s i inc|s d].
  - rewrite get_self. reflexivity.
  - apply set_type.
  - rewrite range_query_self. reflexivity.
  - apply load_from_dict_type.
Qed.

Lemma type_is_fixed_witness :
  type (self_of (load_from_dict [(PyInt 5, PyStr "a"); (PyStr "six", PyStr "b")]
                                (init int None))) = type (init int None).
Proof.
  apply (type_is_fixed (init int None)).
  apply step_load_from_dict.
Defined.

(** ** [range_query] *)

(** X7: among the scalars, lists and tuples, [range_query] raises
    [InvalidInterval] exactly on the strings whose length is not two:
    these are the only arguments that the test of its first statement
    rejects. *)
Theorem InvalidInterval_iff (self : KV) (interval : pyobj) (inclusive : bool) :
  result_of (range_query interval inclusive self) = Raise InvalidInterval <->
  exists s : string, interval = PyScalar (PyStr s) /\ String.length s <> 2.
Proof.
  unfold range_query, bind, eval.
  destruct interval as [[|z|s]|items|items]; cbn [result_of self_of calls_of].
  - simpl. split; [discriminate | intros (s & H & _); discriminate].
  - simpl. split; [discriminate | intros (s & H & _); discriminate].
  - destruct s as [|c1 [|c2 [|c3 s]]]; simpl.
    + split; [intros _; exists EmptyString; split; [reflexivity | simpl; lia] | reflexivity].
    + split; [intros _; eexists; split; [reflexivity | simpl; lia] | reflexivity].
    + split.
      * destruct (is_None (PyStr (String c1 EmptyString))); discriminate.
      * intros (s & [= <-] & H). simpl in H. lia.
    + split; [intros _; eexists; split; [reflexivity | simpl; lia] | reflexivity].
  - split; [|intros (s & H & _); discriminate].
    destruct items as [|a [|b [|c items]]]; simpl; try discriminate.
    destruct (is_None a); discriminate.
  - split; [|intros (s & H & _); discriminate].
    destruct items as [|a [|b [|c items]]]; simpl; try discriminate.
    destruct (is_None a); discriminate.
Qed.

(** X8: on a list or a tuple whose length is not two, [range_query]
    raises the [ValueError] of the unpacking, which is not
    [InvalidInterval]; it has not called the engine, and the store is
    as before. *)
Theorem range_query_wrong_length (self : KV) (items : list pyval)
    (inclusive : bool) :
  length items <> 2 ->
  exists msg,
    ValueError msg <> InvalidInterval /\
    range_query (PyList items) inclusive self =
      mkOutcome (Raise (ValueError msg)) self [] /\
    range_query (PyTuple items) inclusive self =
      mkOutcome (Raise (ValueError msg)) self [].
Proof.
  intros Hlen. unfold range_query, bind, eval. cbn [result_of self_of calls_of].
  destruct items as [|a [|b [|c items]]]; simpl in *; try lia;
    eexists; (split; [|split; reflexivity]); discriminate.
Qed.

Lemma range_query_wrong_length_witness :
  exists msg,
    ValueError msg <> InvalidInterval /\
    range_query (PyList [PyInt 1; PyInt 2; PyInt 3]) true (init int None) =
      mkOutcome (Raise (ValueError msg)) (init int None) [] /\
    range_query (PyTuple [PyInt 1; PyInt 2; PyInt 3]) true (init int None) =
      mkOutcome (Raise (ValueError msg)) (init int None) [].
Proof.
  apply (range_query_wrong_length (init int None) [PyInt 1; PyInt 2; PyInt 3] true).
  simpl. lia.
Defined.

(** X9: on a store built with the public interface, a [range_query]
    that returns leaves the store as it is, and returns entries of the
    store, in ascending key order: [get] on the key of each of them
    returns its value. *)
Theorem range_query_found_stored (self : KV) (interval : pyobj)
    (inclusive : bool) (found : list NodeKey) :
  reachable self ->
  result_of (range_query interval inclusive self) = Return found ->
  self_of (range_query interval inclusive self) = self /\
  sorted found /\
  forall e, In e found ->
    In e (stored self) /\
    result_of (get (BTree.key e) self) = Return (BTree.value e).
Proof.
  intros Hreach Hr. pose proof (reachable_invariant _ Hreach) as Hinv.
  pose proof Hinv as (_ & (_ & Hs & _) & Hall).
  split; [apply range_query_self|].
  destruct (range_query_Return _ _ _ _ Hr) as (lower & upper & _ & Hf).
  assert (Hfilter : exists p, found = List.filter p (stored self)).
  { destruct (is_None lower).
    - exists (below upper inclusive). rewrite Hf. apply less_than_filter. exact Hs.
    - exists (in_range lower upper inclusive). rewrite Hf.
      apply greater_than_filter. exact Hs. }
  destruct Hfilter as (p & ->). split; [apply filter_sorted; exact Hs|].
  intros e He. apply List.filter_In in He as [He _]. split; [exact He|].
  rewrite (get_stored (BTree.key e) (BTree.value e)); trivial.
  - apply lookup_key_sorted_In; trivial.
  - rewrite List.Forall_forall in Hall. apply Hall in He. tauto.
Qed.

Lemma range_query_found_stored_witness :
  let self := self_of (load_from_dict
                [(PyInt 1, PyStr "hello"); (PyInt 2, PyStr "world");
                 (PyInt 3, PyStr "this")] (init int None)) in
  self_of (range_query (PyTuple [PyInt 2; PyNone]) true self) = self /\
  sorted [mkNodeKey (PyInt 2) (PyStr "world"); mkNodeKey (PyInt 3) (PyStr "this")] /\
  forall e,
    In e [mkNodeKey (PyInt 2) (PyStr "world"); mkNodeKey (PyInt 3) (PyStr "this")] ->
    In e (stored self) /\
    result_of (get (BTree.key e) self) = Return (BTree.value e).
Proof.
  intros self.
  apply (range_query_found_stored self (PyTuple [PyInt 2; PyNone]) true).
  - eapply reachable_step; [apply reachable_init | apply step_load_from_dict].
  - reflexivity.
Defined.

(** X10: on a store built with the public interface, [range_query] on
    a pair whose upper bound is under its lower bound returns no entry;
    so does the query that excludes its bounds when they are equal. *)
Theorem range_query_reversed (self : KV) (interval : pyobj) (a b : pyval)
    (inclusive : bool) :
  reachable self ->
  interval = PyList [a; b] \/ interval = PyTuple [a; b] ->
  a <> PyNone -> b <> PyNone ->
  Py.ltb b a = true \/ (a = b /\ inclusive = false) ->
  result_of (range_query interval inclusive self) = Return [].
Proof.
  intros Hreach Hint Ha Hb Hab.
  pose proof (reachable_invariant _ Hreach) as (_ & (_ & Hs & _) & _).
  rewrite (range_query_pair interval a b inclusive self Hint).
  apply is_None_false in Ha. rewrite Ha.
  unfold self_greater_than. cbn [result_of]. f_equal.
  rewrite greater_than_filter by exact Hs.
  apply filter_none. apply List.Forall_forall. intros e _.
  apply in_range_empty; trivial.
Qed.

Lemma range_query_reversed_witness :
  result_of (range_query (PyList [PyInt 3; PyInt 1]) true
               (self_of (load_from_dict
                  [(PyInt 1, PyStr "hello"); (PyInt 2, PyStr "world");
                   (PyInt 3, PyStr "this")] (init int None)))) = Return [].
Proof.
  apply (range_query_reversed _ (PyList [PyInt 3; PyInt 1]) (PyInt 3) (PyInt 1) true).
  - eapply reachable_step; [apply reachable_init | apply step_load_from_dict].
  - left. reflexivity.
  - discriminate.
  - discriminate.
  - left. reflexivity.
Defined.

(** X11: on a store built with the public interface and for a bound
    [b] other than [None], the entries under [b], given by
    [range_query([None, b])], followed by the entries from [b] on, given
    by [range_query([b, None], inclusive=True)], are all the entries of
    the store, each one once. *)
Theorem range_query_partition (self : KV) (b : pyval) :
  reachable self ->
  b <> PyNone ->
  exists under over,
    result_of (range_query (PyList [PyNone; b]) false self) = Return under /\
    result_of (range_query (PyList [b; PyNone]) true self) = Return over /\
    under ++ over = stored self.
Proof.
  intros Hreach Hb.
  pose proof (reachable_invariant _ Hreach) as (_ & (_ & Hs & _) & _).
  exists (List.filter (below b false) (stored self)),
         (List.filter (fun e => negb (below b false e)) (stored self)).
  repeat split.
  - rewrite (range_query_pair _ PyNone b false self (or_introl eq_refl)).
    unfold self_less_than. simpl. f_equal. apply less_than_filter. exact Hs.
  - rewrite (range_query_pair _ b PyNone true self (or_introl eq_refl)).
    apply is_None_false in Hb. rewrite Hb.
    unfold self_greater_than. cbn [result_of]. f_equal.
    rewrite greater_than_filter by exact Hs.
    apply List.filter_ext. intros e.
    unfold in_range, within. simpl. rewrite andb_true_r.
    apply above_inclusive_negb_below.
  - apply filter_cut; [apply below_down_closed | exact Hs].
Qed.

Lemma range_query_partition_witness :
  let self := self_of (load_from_dict
                [(PyInt 1, PyStr "hello"); (PyInt 2, PyStr "world");
                 (PyInt 3, PyStr "this")] (init int None)) in
  exists under over,
    result_of (range_query (PyList [PyNone; PyInt 2]) false self) = Return under /\
    result_of (range_query (PyList [PyInt 2; PyNone]) true self) = Return over /\
    under ++ over = stored self.
Proof.
  intros self. apply (range_query_partition self (PyInt 2)).
  - eapply reachable_step; [apply reachable_init | apply step_load_from_dict].
  - discriminate.
Defined.

(** ** [load_from_dict] *)

(** X12: loading a dictionary whose items are those of [d1] followed by
    those of [d2] is loading [d1] and then, if that returned, loading
    [d2] on the resulting store; an exception raised while loading [d1]
    ends the call, and nothing of [d2] is looked at. *)
Theorem load_from_dict_app (self : KV) (d1 d2 : dict) :
  load_from_dict (d1 ++ d2) self =
  bind (load_from_dict d1) (fun _ => load_from_dict d2) self.
Proof.
  revert self. induction d1 as [|[k v] d1 IH]; intros self.
  - unfold bind. simpl. destruct (load_from_dict d2 self). reflexivity.
  - change (((k, v) :: d1) ++ d2) with ((k, v) :: (d1 ++ d2)).
    rewrite load_from_dict_cons. unfold bind at 1.
    rewrite load_from_dict_cons.
    destruct (result_of (set k v self)) as [[]|e]; cbn [result_of self_of calls_of].
    + rewrite IH. unfold bind.
      destruct (result_of (load_from_dict d1 (self_of (set k v self))));
        cbn [result_of self_of calls_of]; rewrite ?app_assoc; reflexivity.
    + reflexivity.
Qed.

(** X13: after a [load_from_dict] that returned, on a store built with
    the public interface, [get] returns the value of the dictionary for
    a key of the dictionary and answers as before for every other key;
    the store has as many entries more as the dictionary has items. *)
Theorem load_from_dict_frame (self : KV) (dictionary : dict) :
  reachable self ->
  result_of (load_from_dict dictionary self) = Return tt ->
  (forall k,
     result_of (get k (self_of (load_from_dict dictionary self))) =
     match dict_get k dictionary with
     | Some v => Return v
     | None => result_of (get k self)
     end) /\
  length (stored (self_of (load_from_dict dictionary self))) =
  length (stored self) + length dictionary.
Proof.
  intros Hreach Hr. pose proof (reachable_invariant _ Hreach) as Hinv.
  split; [|apply load_from_dict_length; trivial].
  destruct (load_from_dict_Return dictionary self Hinv Hr) as (_ & Hall & Hl & _).
  pose proof (load_from_dict_invariant dictionary self Hinv) as Hinv'.
  intros k. destruct (dict_get k dictionary) as [v|] eqn:Hd.
  - rewrite (get_stored k v); trivial.
    + rewrite Hl, Hd. reflexivity.
    + clear - Hall Hd. induction dictionary as [|[k' v'] d IH]; [discriminate|].
      apply Forall_cons in Hall as [(_ & Hv' & _) Hall]. simpl in Hd, Hv'.
      destruct (decide (k' = k)); [congruence | auto].
  - apply get_result_search.
    rewrite (search_stored _ _ Hinv'), (search_stored _ _ Hinv), Hl, Hd. reflexivity.
Qed.

Lemma load_from_dict_frame_witness :
  let self := self_of (set (PyInt 1) (PyStr "hello") (init int None)) in
  (forall k,
     result_of (get k (self_of (load_from_dict
                  [(PyInt 5, PyStr "a"); (PyInt 6, PyStr "simple")] self))) =
     match dict_get k [(PyInt 5, PyStr "a"); (PyInt 6, PyStr "simple")] with
     | Some v => Return v
     | None => result_of (get k self)
     end) /\
  length (stored (self_of (load_from_dict
            [(PyInt 5, PyStr "a"); (PyInt 6, PyStr "simple")] self))) =
  length (stored self) + length [(PyInt 5, PyStr "a"); (PyInt 6, PyStr "simple")].
Proof.
  intros self.
  apply (load_from_dict_frame self [(PyInt 5, PyStr "a"); (PyInt 6, PyStr "simple")]).
  - eapply reachable_step; [apply reachable_init | apply step_set].
  - reflexivity.
Defined.

(** X14: the only exceptions that [load_from_dict] raises are those of
    [set]: [InvalidValue], [KeyTypeMismatch] for the declared type of
    the store, and [DuplicateKey]. *)
Theorem load_from_dict_errors (self : KV) (dictionary : dict) (e : exn) :
  result_of (load_from_dict dictionary self) = Raise e ->
  e = InvalidValue \/ e = KeyTypeMismatch (type self) \/ e = DuplicateKey.
Proof.
  intros Hr.
  destruct (load_from_dict_Raise dictionary self e Hr)
    as (done & key & value & rest & _ & _ & Hset & _).
  cbv zeta in Hset. destruct (set_Raise _ _ _ _ Hset) as (_ & He & _).
  rewrite load_from_dict_type in He. exact He.
Qed.

Lemma load_from_dict_errors_witness :
  DuplicateKey = InvalidValue \/
  DuplicateKey =
    KeyTypeMismatch (type (self_of (set (PyInt 5) (PyStr "a") (init int None)))) \/
  DuplicateKey = DuplicateKey.
Proof.
  apply (load_from_dict_errors
           (self_of (set (PyInt 5) (PyStr "a") (init int None)))
           [(PyInt 4, PyStr "is"); (PyInt 5, PyStr "b")] DuplicateKey).
  reflexivity.
Defined.

(** ** [dump] and [load] *)

Section PersistenceMore.

Variable blob : Type.
Variable pickle_dumps : KV -> blob.
Variable pickle_loads : blob -> option KV.

(** What [pickle] promises: unpickling a pickled object gives the
    object back. *)
Hypothesis pickle_roundtrip : forall obj, pickle_loads (pickle_dumps obj) = Some obj.

(** X15: [dump] touches one file only, the one named by its argument
    followed by [.db]: whatever its outcome, every other file is as it
    was. *)
Theorem dump_other_files (self : KV) (filename : string) (w : World blob)
    (path : string) :
  path <> (filename ++ ".db")%string ->
  files blob (snd (dump blob pickle_dumps self filename w)) !! path =
  files blob w !! path.
Proof. apply dump_files_ne. Qed.

(** X16: a [dump] replaces what the file held.  After two calls of
    [dump] under the same name that both returned, the file holds the
    pickled form of the second store alone, and [load] of the name (if
    the file can be opened for reading) returns the second store. *)
Theorem latest_dump_wins (first second : KV) (filename : string)
    (w w1 w2 : World blob) (flag1 flag2 : bool) :
  dump blob pickle_dumps first filename w = (Return flag1, w1) ->
  dump blob pickle_dumps second filename w1 = (Return flag2, w2) ->
  read_fault blob w2 (filename ++ ".db")%string = None ->
  files blob w2 !! (filename ++ ".db")%string = Some [pickle_dumps second] /\
  load blob pickle_loads filename w2 = (Return second, w2).
Proof.
  intros _ H2 Hr. rewrite dump_cases in H2. cbv zeta in H2.
  destruct (open_fault blob w1 (filename ++ ".db")%string); [discriminate|].
  destruct (write_fault blob w1 (filename ++ ".db")%string); [discriminate|].
  injection H2 as _ Hw2.
  assert (Hf : files blob w2 !! (filename ++ ".db")%string = Some [pickle_dumps second]).
  { rewrite <- Hw2. cbn [files with_files]. apply lookup_insert_eq. }
  split; [exact Hf|].
  rewrite load_cases. cbv zeta. rewrite Hr, Hf, pickle_roundtrip. reflexivity.
Qed.


(** X18: [load] does not write: the files are as they were, whatever
    its outcome.  When no file has the name followed by [.db] (and
    opening does not fail otherwise), [load] raises [OSError]. *)
Theorem load_missing_file (filename : string) (w : World blob) :
  snd (load blob pickle_loads filename w) = w /\
  (read_fault blob w (filename ++ ".db")%string = None ->
   files blob w !! (filename ++ ".db")%string = None ->
   exists msg, fst (load blob pickle_loads filename w) = Raise (OSError msg)).
Proof.
  rewrite load_cases. cbv zeta. split.
  - destruct (read_fault blob w (filename ++ ".db")%string); [reflexivity|].
    destruct (files blob w !! (filename ++ ".db")%string) as [[|b bs]|];
      try reflexivity.
    destruct (pickle_loads b); reflexivity.
  - intros -> ->. eexists. reflexivity.
Qed.


(** X20: the round trip gives the object back.  When [dump] of a store
    under a name has returned, [load] of that name (if the file can be
    opened for reading) returns the store that was dumped, with its
    type, its degree and its tree: every later call of [set] or
    [load_from_dict] on the loaded store has the outcome it has on the
    dumped one. *)
Theorem load_returns_dumped (self : KV) (filename : string) (w w' : World blob)
    (flag : bool) :
  dump blob pickle_dumps self filename w = (Return flag, w') ->
  read_fault blob w' (filename ++ ".db")%string = None ->
  exists self',
    load blob pickle_loads filename w' = (Return self', w') /\
    type self' = type self /\ super self' = super self /\
    (forall key value, set key value self' = set key value self) /\
    (forall dictionary, load_from_dict dictionary self' = load_from_dict dictionary self).
Proof.
  intros Hd Hr. rewrite dump_cases in Hd. cbv zeta in Hd.
  destruct (open_fault blob w (filename ++ ".db")%string); [discriminate|].
  destruct (write_fault blob w (filename ++ ".db")%string); [discriminate|].
  injection Hd as _ <-.
  exists self. repeat split.
  rewrite load_cases. cbv zeta.
  rewrite Hr. cbn [files with_files].
  rewrite lookup_insert_eq, pickle_roundtrip. reflexivity.
Qed.

End PersistenceMore.

Lemma dump_other_files_witness :
  files KV (snd (dump KV id (init int None) "other"
                   (snd (dump KV id (init str None) "sample_store" (quiet_world KV)))))
    !! "sample_store.db" =
  files KV (snd (dump KV id (init str None) "sample_store" (quiet_world KV)))
    !! "sample_store.db".
Proof.
  apply (dump_other_files KV id (init int None) "other"
           (snd (dump KV id (init str None) "sample_store" (quiet_world KV)))
           "sample_store.db").
  discriminate.
Defined.

Lemma latest_dump_wins_witness :
  let w1 := snd (dump KV id (init int None) "sample_store" (quiet_world KV)) in
  let second := self_of (set (PyInt 1) (PyStr "hello") (init int None)) in
  let w2 := snd (dump KV id second "sample_store" w1) in
  files KV w2 !! "sample_store.db" = Some [second] /\
  load KV Some "sample_store" w2 = (Return second, w2).
Proof.
  intros w1 second w2.
  apply (latest_dump_wins KV id Some (fun obj => eq_refl) (init int None) second
           "sample_store" (quiet_world KV) w1 w2 true true); reflexivity.
Defined.



Lemma load_returns_dumped_witness :
  let self := self_of (set (PyInt 1) (PyStr "hello") (init int None)) in
  let w' := snd (dump KV id self "sample_store" (quiet_world KV)) in
  exists self',
    load KV Some "sample_store" w' = (Return self', w') /\
    type self' = type self /\ super self' = super self /\
    (forall key value, set key value self' = set key value self) /\
    (forall dictionary, load_from_dict dictionary self' = load_from_dict dictionary self).
Proof.
  intros self w'.
  apply (load_returns_dumped KV id Some (fun obj => eq_refl) self "sample_store"
           (quiet_world KV) w' true); reflexivity.
Defined.

(* ===================================================================== *)
(** * Properties of the lengths of the columns *)
(* ===================================================================== *)

Module StormFacts.

Import Storm.

Lemma In_range a b i : In i (range a b) <-> a <= i < b.
Proof. unfold range. rewrite in_seq. lia. Qed.

(** The inner loop computes a maximum. *)
Lemma fold_longer data col l acc :
  acc <= fold_left (longer data col) l acc /\
  (forall i, In i l -> String.length (cell data col i) <= fold_left (longer data col) l acc) /\
  (fold_left (longer data col) l acc = acc \/
   exists i, In i l /\ String.length (cell data col i) = fold_left (longer data col) l acc).
Proof.
  revert acc. induction l as [|j l IH]; intros acc; simpl.
  - split; [lia|]. split; [tauto | left; reflexivity].
  - destruct (IH (longer data col acc j)) as (H1 & H2 & H3).
    assert (Hacc : acc <= longer data col acc j /\
                   String.length (cell data col j) <= longer data col acc j /\
                   (longer data col acc j = acc \/
                    longer data col acc j = String.length (cell data col j))).
    { unfold longer. destruct (Nat.ltb_spec acc (String.length (cell data col j))); lia. }
    destruct Hacc as (Ha & Hj & Hor).
    split; [lia|]. split.
    + intros i [<-|Hi]; [lia | auto].
    + destruct H3 as [H3|(i & Hi & H3)].
      * destruct Hor as [Hor|Hor].
        -- left. congruence.
        -- right. exists j. split; [left; reflexivity | congruence].
      * right. exists i. auto.
Qed.

Lemma fold_left_ext_In {A B} (f g : A -> B -> A) (l : list B) (a : A) :
  (forall acc x, In x l -> f acc x = g acc x) ->
  fold_left f l a = fold_left g l a.
Proof.
  revert a. induction l as [|x l IH]; intros a H; simpl; trivial.
  rewrite (H a x) by (left; reflexivity). apply IH.
  intros acc y Hy. apply H. right. exact Hy.
Qed.

(** After the outer loop the dictionary has the last value recorded for
    each column met. *)
Lemma col_lengths_lookup data cols st col :
  col_len_dict (fold_left (column_step data) cols st) !! col =
  if in_dec String.string_dec col cols then Some (max_len_of data col)
  else col_len_dict st !! col.
Proof.
  revert st. induction cols as [|c cols IH]; intros st.
  - reflexivity.
  - cbn [fold_left]. rewrite IH.
    destruct (in_dec String.string_dec col cols) as [Hin|Hin];
      destruct (in_dec String.string_dec col (c :: cols)) as [Hin'|Hin'];
      trivial.
    + exfalso. apply Hin'. right. exact Hin.
    + destruct Hin' as [->|Hin']; [|contradiction].
      simpl. apply lookup_insert_eq.
    + simpl. apply lookup_insert_ne. intros ->. apply Hin'. left. reflexivity.
Qed.

Lemma col_lengths_printed data cols st :
  length (printed (fold_left (column_step data) cols st)) =
  length (printed st) + length cols.
Proof.
  revert st. induction cols as [|c cols IH]; intros st; simpl; [lia|].
  rewrite IH. simpl. rewrite length_app. simpl. lia.
Qed.

End StormFacts.

Import Storm StormFacts.

(** ** The loop over the columns *)

(** X21: after the loop, [col_len_dict] has an entry for each column of
    the table and only for them, and one line was printed per column.
    The value recorded for a column is at least the length of the text
    of each of its cells in the rows from 1 on, and it is the length of
    one of them, unless it is 0. *)
Theorem col_len_dict_max (data : DataFrame) (col : string) :
  In col (columns data) ->
  exists max_len,
    col_len_dict (col_lengths data) !! col = Some max_len /\
    (forall i, 1 <= i < nrows data -> String.length (cell data col i) <= max_len) /\
    (max_len = 0 \/
     exists i, 1 <= i < nrows data /\ String.length (cell data col i) = max_len) /\
    (forall other, ~ In other (columns data) ->
                   col_len_dict (col_lengths data) !! other = None) /\
    length (printed (col_lengths data)) = length (columns data).
Proof.
  intros Hin. exists (max_len_of data col). unfold col_lengths.
  rewrite col_lengths_lookup.
  destruct (in_dec String.string_dec col (columns data)) as [_|Hn]; [|tauto].
  destruct (fold_longer data col (range 1 (nrows data)) 0) as (_ & Hb & Ha).
  split; [reflexivity|]. split; [|split; [|split]].
  - intros i Hi. apply Hb. apply In_range. exact Hi.
  - destruct Ha as [Ha|(i & Hi & Ha)]; [left; exact Ha|].
    right. exists i. split; [apply In_range; exact Hi | exact Ha].
  - intros other Ho. rewrite col_lengths_lookup.
    destruct (in_dec String.string_dec other (columns data)) as [Hy|_];
      [tauto | reflexivity].
  - rewrite col_lengths_printed. reflexivity.
Qed.

(** X22: the loop starts at row 1: the text of the cells of row 0 is
    never read.  Two tables with the same columns and as many rows, that
    agree on the rows from 1 on, give the same dictionary and the same
    printed lines. *)
Theorem first_row_not_read (data data' : DataFrame) :
  columns data = columns data' ->
  nrows data = nrows data' ->
  (forall col i, 1 <= i -> cell data col i = cell data' col i) ->
  col_lengths data = col_lengths data'.
Proof.
  intros Hc Hn Hcell.
  assert (Hm : forall col, max_len_of data col = max_len_of data' col).
  { intros col. unfold max_len_of. rewrite <- Hn. apply fold_left_ext_In.
    intros acc i Hi. apply In_range in Hi. unfold longer.
    rewrite (Hcell col i) by lia. reflexivity. }
  unfold col_lengths. rewrite <- Hc. apply fold_left_ext_In.
  intros st col _. unfold column_step. rewrite Hm. reflexivity.
Qed.

(** X23: when the text of the cell of row 0 of a column is longer than
    the text of its cells in all the other rows, the length recorded for
    the column is smaller than the length of that text. *)
Theorem first_row_longest (data : DataFrame) (col : string) :
  In col (columns data) ->
  0 < String.length (cell data col 0) ->
  (forall i, 1 <= i < nrows data ->
             String.length (cell data col i) < String.length (cell data col 0)) ->
  exists max_len,
    col_len_dict (col_lengths data) !! col = Some max_len /\
    max_len < String.length (cell data col 0).
Proof.
  intros Hin Hpos Hlt. exists (max_len_of data col). unfold col_lengths.
  rewrite col_lengths_lookup.
  destruct (in_dec String.string_dec col (columns data)) as [_|Hn]; [|tauto].
  split; [reflexivity|].
  destruct (fold_longer data col (range 1 (nrows data)) 0) as (_ & _ & Ha).
  fold (max_len_of data col) in Ha.
  destruct Ha as [->|(i & Hi & <-)]; [exact Hpos|].
  apply Hlt. apply In_range. exact Hi.
Qed.

Lemma col_len_dict_max_witness :
  exists max_len,
    col_len_dict (col_lengths sample) !! "NAME" = Some max_len /\
    (forall i, 1 <= i < nrows sample ->
               String.length (cell sample "NAME" i) <= max_len) /\
    (max_len = 0 \/
     exists i, 1 <= i < nrows sample /\ String.length (cell sample "NAME" i) = max_len) /\
    (forall other, ~ In other (columns sample) ->
                   col_len_dict (col_lengths sample) !! other = None) /\
    length (printed (col_lengths sample)) = length (columns sample).
Proof.
  apply (col_len_dict_max sample "NAME").
  right. left. reflexivity.
Defined.

Lemma first_row_not_read_witness :
  col_lengths sample = col_lengths sample_other_first_row.
Proof.
  apply (first_row_not_read sample sample_other_first_row).
  - reflexivity.
  - reflexivity.
  - intros col i Hi. destruct i as [|i]; [lia | reflexivity].
Defined.

Lemma first_row_longest_witness :
  exists max_len,
    col_len_dict (col_lengths sample) !! "NAME" = Some max_len /\
    max_len < String.length (cell sample "NAME" 0).
Proof.
  apply (first_row_longest sample "NAME").
  - right. left. reflexivity.
  - simpl. lia.
  - intros i Hi. simpl in Hi.
    destruct i as [|[|[|i]]]; simpl; lia.
Defined.
